(** * lfm: a sharded map of CAS-linked chains (minami14/lfm)

    A shallow embedding of the three revisions of the map under [src/]:

    - [src/map.go]: chains of [atomic.Value] cells, [Delete] through
      [atomic.Value.CompareAndSwap];
    - [src/unnamed/part_000]: [index] special-cases a single shard, [Delete]
      swings raw pointers with [atomic.CompareAndSwapPointer], [LoadAndStore]
      is added;
    - [src/unnamed/part_001]: as [part_000], with a type parameter for the
      values and [StoreNotExists].

    The heap is explicit.  Every [atomic.Value] and every [keyValuePair] lives
    in an arena and is named by its address; the shard table holds addresses of
    [atomic.Value]s and every entry holds the address of its [nextPair].  The
    code runs in a monad that threads the heap and can panic.  The platform is
    a 64-bit one: [int] is [int64]. *)

From Stdlib Require Import ZArith Lia.
From stdpp Require Import base list strings.

Local Open Scope Z_scope.

(** ** The 64-bit FNV-1 hash of [hash/fnv] ([fnv.New64]) *)

Definition offset64 : Z := 14695981039346656037.
Definition prime64 : Z := 1099511628211.
Definition uint64 (x : Z) : Z := x mod 2 ^ 64.

Definition bytes (key : string) : list Z :=
  map (fun c => Z.of_N (Ascii.N_of_ascii c)) (String.list_ascii_of_string key).

(** [Write]: [hash *= prime64; hash ^= sum64(c)] for every byte. *)
Definition fnv_Write (hash : Z) (data : list Z) : Z :=
  fold_left (fun h c => Z.lxor (uint64 (h * prime64)) c) data hash.

Definition fnv_Sum64 (key : string) : Z := fnv_Write offset64 (bytes key).

(** ** Outcomes *)

Inductive panic :=
| DivideByZero          (* runtime error: integer divide by zero *)
| IndexOutOfRange       (* runtime error: index out of range *)
| MakeSliceLen          (* runtime error: makeslice: len out of range *)
| NilDereference        (* invalid memory address or nil pointer dereference *)
| TypeAssertion         (* interface conversion: wrong dynamic type *)
| CasNilValue           (* sync/atomic: compare and swap of nil value into Value *)
| CasInconsistentType   (* sync/atomic: compare and swap of inconsistently typed value *)
| WildPointer.          (* an address the arena does not hold; Go rules it out *)

Inductive result (A : Type) :=
| Ok (a : A)
| Panic (p : panic)
| Diverge.              (* a [for] loop that walks a cyclic chain *)
Arguments Ok {A} a.
Arguments Panic {A} p.
Arguments Diverge {A}.

(** ** Data *)

Abbreviation loc := nat (only parsing).

(** The interface values the code puts into or compares with an
    [atomic.Value]: [nil], a [*keyValuePair], a [*atomic.Value]. *)
Inductive any :=
| nil
| ptr_keyValuePair (p : loc)
| ptr_Value (c : loc).

Inductive dyn_type := no_type | type_keyValuePair | type_Value.

Definition type_of (v : any) : dyn_type :=
  match v with
  | nil => no_type
  | ptr_keyValuePair _ => type_keyValuePair
  | ptr_Value _ => type_Value
  end.

Global Instance any_eq_dec : EqDecision any.
Proof. solve_decision. Defined.
Global Instance dyn_type_eq_dec : EqDecision dyn_type.
Proof. solve_decision. Defined.

(** The revisions of the source. [part_000] and [part_001] agree on every
    function both of them have. *)
Inductive revision :=
| map_go        (* src/map.go *)
| part_000      (* src/unnamed/part_000 *)
| part_001.     (* src/unnamed/part_001 *)

Global Instance revision_eq_dec : EqDecision revision.
Proof. solve_decision. Defined.

Section Lfm.

(** The values stored: [interface{}] in [map.go] and [part_000], the type
    parameter [T] in [part_001]. *)
Context {V : Type}.

Record keyValuePair := {
  key : string;
  value : V;
  nextPair : loc;          (* *atomic.Value *)
}.

(** The heap together with the [Map] struct that lives in it. *)
Record memory := {
  values : list any;            (* the atomic.Values, by address *)
  kvs : list keyValuePair;      (* the keyValuePairs, by address *)
  pairs : list loc;             (* m.pairs *)
  Map_length : Z;               (* m.length, an int64 *)
}.

Definition set_values (f : list any → list any) (s : memory) : memory :=
  {| values := f (values s); kvs := kvs s; pairs := pairs s;
     Map_length := Map_length s |}.
Definition set_kvs (f : list keyValuePair → list keyValuePair) (s : memory) : memory :=
  {| values := values s; kvs := f (kvs s); pairs := pairs s;
     Map_length := Map_length s |}.
Definition set_pairs (f : list loc → list loc) (s : memory) : memory :=
  {| values := values s; kvs := kvs s; pairs := f (pairs s);
     Map_length := Map_length s |}.
Definition set_length (f : Z → Z) (s : memory) : memory :=
  {| values := values s; kvs := kvs s; pairs := pairs s;
     Map_length := f (Map_length s) |}.

(** ** The monad: heap passing with panics *)

Definition M (A : Type) : Type := memory → result (A * memory).

Definition ret {A} (a : A) : M A := fun s => Ok (a, s).
Definition bind {A B} (m : M A) (k : A → M B) : M B :=
  fun s => match m s with
           | Ok (a, s') => k a s'
           | Panic p => Panic p
           | Diverge => Diverge
           end.
Definition throw {A} (p : panic) : M A := fun _ => Panic p.
Definition diverge {A} : M A := fun _ => Diverge.

Notation "'let*' x ':=' m 'in' k" := (bind m (fun x => k))
  (at level 10, x name, m at level 100, k at level 200, only parsing).

(** ** Primitives *)

(** [int64] wrap-around of [atomic.AddInt64]. *)
Definition int64 (x : Z) : Z := (x + 2 ^ 63) mod 2 ^ 64 - 2 ^ 63.

Definition AddInt64_length (delta : Z) : M unit :=
  fun s => Ok (tt, set_length (fun n => int64 (n + delta)) s).

(** [new(atomic.Value)] *)
Definition new_Value : M loc :=
  fun s => Ok (length (values s), set_values (fun vs => vs ++ [nil]) s).

(** [&keyValuePair{...}] *)
Definition new_keyValuePair (kv : keyValuePair) : M loc :=
  fun s => Ok (length (kvs s), set_kvs (fun ps => ps ++ [kv]) s).

(** [*p] for a [p *keyValuePair] *)
Definition deref (p : loc) : M keyValuePair :=
  fun s => match kvs s !! p with
           | Some kv => Ok (kv, s)
           | None => Panic WildPointer
           end.

(** [p.value = v] *)
Definition set_value (p : loc) (v : V) : M unit :=
  fun s => match kvs s !! p with
           | Some kv =>
               Ok (tt, set_kvs (fun ps =>
                     <[p := {| key := key kv; value := v; nextPair := nextPair kv |}]> ps) s)
           | None => Panic WildPointer
           end.

(** [m.pairs[i]] *)
Definition pairs_at (i : Z) : M loc :=
  fun s => if decide (0 ≤ i)
           then match pairs s !! Z.to_nat i with
                | Some c => Ok (c, s)
                | None => Panic IndexOutOfRange
                end
           else Panic IndexOutOfRange.

(** [len(m.pairs)] *)
Definition len_pairs : M Z := fun s => Ok (Z.of_nat (length (pairs s)), s).

(** [Load] of an [atomic.Value] *)
Definition Value_Load (c : loc) : M any :=
  fun s => match values s !! c with
           | Some v => Ok (v, s)
           | None => Panic WildPointer
           end.

(** [CompareAndSwap(old, new)] of an [atomic.Value]. The package
    sync/atomic documents: CompareAndSwap of an inconsistent type panics, as
    does CompareAndSwap(old, nil). In the order of its code: a nil [new]
    panics; [old] and [new] of different types panic; on a [Value] nothing was
    stored in, the swap happens when [old] is nil; otherwise a [new] whose type
    differs from the type stored panics, and the swap happens when the value
    stored equals [old]. *)
Definition Value_CompareAndSwap (c : loc) (old new : any) : M bool :=
  fun s =>
    if decide (new = nil) then Panic CasNilValue
    else if decide (old ≠ nil ∧ type_of old ≠ type_of new) then Panic CasInconsistentType
    else match values s !! c with
         | None => Panic WildPointer
         | Some nil =>
             if decide (old = nil)
             then Ok (true, set_values (fun vs => <[c := new]> vs) s)
             else Ok (false, s)
         | Some cur =>
             if decide (type_of cur = type_of new)
             then if decide (cur = old)
                  then Ok (true, set_values (fun vs => <[c := new]> vs) s)
                  else Ok (false, s)
             else Panic CasInconsistentType
         end.

(** the type assertion of [v] to a pointer to [keyValuePair] *)
Definition as_keyValuePair (v : any) : M loc :=
  match v with
  | ptr_keyValuePair p => ret p
  | _ => throw TypeAssertion
  end.

(** [atomic.CompareAndSwapPointer(&m.pairs[i], old, new)] *)
Definition CompareAndSwapPointer_pairs (i : Z) (old new : loc) : M bool :=
  fun s => if decide (0 ≤ i)
           then match pairs s !! Z.to_nat i with
                | Some c =>
                    if decide (c = old)
                    then Ok (true, set_pairs (fun ps => <[Z.to_nat i := new]> ps) s)
                    else Ok (false, s)
                | None => Panic IndexOutOfRange
                end
           else Panic IndexOutOfRange.

(** [atomic.CompareAndSwapPointer(&pp.nextPair, old, new)] *)
Definition CompareAndSwapPointer_nextPair (pp : loc) (old new : loc) : M bool :=
  fun s => match kvs s !! pp with
           | Some kv =>
               if decide (nextPair kv = old)
               then Ok (true, set_kvs (fun ps =>
                          <[pp := {| key := key kv; value := value kv; nextPair := new |}]> ps) s)
               else Ok (false, s)
           | None => Panic WildPointer
           end.

(** The bound on the iterations of a [for] loop over a chain: a walk that
    takes more steps than there are entries has met an entry twice, and then
    the loop of the source never ends. *)
Definition fuel (s : memory) : nat := S (length (kvs s)).

(** ** New ([map.go] 13-21, [part_000] and [part_001] 14-22) *)

Fixpoint new_Values (n : nat) : M (list loc) :=
  match n with
  | O => ret []
  | S n' =>
      let* c := new_Value in
      let* cs := new_Values n' in
      ret (c :: cs)
  end.

Definition empty_memory : memory :=
  {| values := []; kvs := []; pairs := []; Map_length := 0 |}.

(** [make] panics on a negative length. It also fails on a length past what
    the allocator of the platform can give; that limit is not modelled, so
    the model may return where [New] of the source does not, and what is
    proved of a fresh map is proved of every state [New] returns. *)
Definition New (size : Z) : result memory :=
  if decide (size < 0) then Panic MakeSliceLen
  else match new_Values (Z.to_nat size) empty_memory with
       | Ok (cs, s) => Ok (set_pairs (fun _ => cs) s)
       | Panic p => Panic p
       | Diverge => Diverge
       end.

(** ** index ([map.go] 29-33, [part_000] and [part_001] 30-37) *)

(** [int(h.Sum64()&((1<<63)-1))] *)
Definition hash63 (k : string) : Z := Z.land (fnv_Sum64 k) (2 ^ 63 - 1).

(** [x % y] on [int]: a zero divisor panics, the remainder has the sign of
    [x]. *)
Definition int_rem (x y : Z) : M Z :=
  if decide (y = 0) then throw DivideByZero else ret (Z.rem x y).

Definition index (rev : revision) (k : string) : M Z :=
  match rev with
  | map_go =>
      let* n := len_pairs in
      int_rem (hash63 k) (n - 1)
  | _ =>
      let* n := len_pairs in
      if decide (n = 1) then ret 0
      else int_rem (hash63 k) (n - 1)
  end.

(** ** Store ([map.go] 35-55, [part_000] and [part_001] 39-59) *)

Fixpoint Store_loop (n : nat) (k : string) (v : V) (pair current : loc) : M unit :=
  match n with
  | O => diverge
  | S n' =>
      let* swapped := Value_CompareAndSwap current nil (ptr_keyValuePair pair) in
      if swapped : bool then AddInt64_length 1
      else
        let* x := Value_Load current in
        let* p := as_keyValuePair x in
        let* kv := deref p in
        if decide (key kv = k) then set_value p v
        else Store_loop n' k v pair (nextPair kv)
  end.

Definition new_pair (k : string) (v : V) : M loc :=
  let* c := new_Value in
  new_keyValuePair {| key := k; value := v; nextPair := c |}.

Definition Store (rev : revision) (k : string) (v : V) : M unit :=
  let* pair := new_pair k v in
  let* i := index rev k in
  let* current := pairs_at i in
  fun s => Store_loop (fuel s) k v pair current s.

(** ** Load ([map.go] 57-71, [part_000] and [part_001] 61-75) *)

Fixpoint Load_loop (n : nat) (k : string) (current : loc) : M (option V * bool) :=
  match n with
  | O => diverge
  | S n' =>
      let* x := Value_Load current in
      if decide (x = nil) then ret (None, false)
      else
        let* p := as_keyValuePair x in
        let* kv := deref p in
        if decide (key kv = k) then ret (Some (value kv), true)
        else Load_loop n' k (nextPair kv)
  end.

Definition Load (rev : revision) (k : string) : M (option V * bool) :=
  let* i := index rev k in
  let* current := pairs_at i in
  fun s => Load_loop (fuel s) k current s.

(** ** LoadOrStore ([map.go] 73-92, [part_000] and [part_001] 77-96) *)

Fixpoint LoadOrStore_loop (n : nat) (k : string) (v : V) (pair current : loc)
  : M (V * bool) :=
  match n with
  | O => diverge
  | S n' =>
      let* swapped := Value_CompareAndSwap current nil (ptr_keyValuePair pair) in
      if swapped : bool then
        let* _ := AddInt64_length 1 in
        ret (v, true)
      else
        let* x := Value_Load current in
        let* p := as_keyValuePair x in
        let* kv := deref p in
        if decide (key kv = k) then ret (value kv, false)
        else LoadOrStore_loop n' k v pair (nextPair kv)
  end.

Definition LoadOrStore (rev : revision) (k : string) (v : V) : M (V * bool) :=
  let* pair := new_pair k v in
  let* i := index rev k in
  let* current := pairs_at i in
  fun s => LoadOrStore_loop (fuel s) k v pair current s.

(** ** LoadAndStore ([part_000] and [part_001] 98-119) *)

Fixpoint LoadAndStore_loop (n : nat) (k : string) (v : V) (pair current : loc)
  : M (option V) :=
  match n with
  | O => diverge
  | S n' =>
      let* swapped := Value_CompareAndSwap current nil (ptr_keyValuePair pair) in
      if swapped : bool then
        let* _ := AddInt64_length 1 in
        ret None
      else
        let* x := Value_Load current in
        let* p := as_keyValuePair x in
        let* kv := deref p in
        if decide (key kv = k) then
          let old := value kv in
          let* _ := set_value p v in
          ret (Some old)
        else LoadAndStore_loop n' k v pair (nextPair kv)
  end.

Definition LoadAndStore (k : string) (v : V) : M (option V) :=
  let* pair := new_pair k v in
  let* i := index part_000 k in
  let* current := pairs_at i in
  fun s => LoadAndStore_loop (fuel s) k v pair current s.

(** ** StoreNotExists ([part_001] 121-140) *)

Fixpoint StoreNotExists_loop (n : nat) (k : string) (pair current : loc) : M bool :=
  match n with
  | O => diverge
  | S n' =>
      let* swapped := Value_CompareAndSwap current nil (ptr_keyValuePair pair) in
      if swapped : bool then
        let* _ := AddInt64_length 1 in
        ret true
      else
        let* x := Value_Load current in
        let* p := as_keyValuePair x in
        let* kv := deref p in
        if decide (key kv = k) then ret false
        else StoreNotExists_loop n' k pair (nextPair kv)
  end.

Definition StoreNotExists (k : string) (v : V) : M bool :=
  let* pair := new_pair k v in
  let* i := index part_001 k in
  let* current := pairs_at i in
  fun s => StoreNotExists_loop (fuel s) k pair current s.

(** ** Delete ([map.go] 94-127, [part_000] 121-161, [part_001] 142-182) *)

(** [map.go]: the loop over the entries behind the head. [pre] and [current]
    are [atomic.Value]s, and both arguments of the swap are pointers to
    [atomic.Value]s. *)
Fixpoint Delete_loop_map_go (n : nat) (k : string) (pre current : loc) : M bool :=
  match n with
  | O => diverge
  | S n' =>
      let* x := Value_Load current in
      if decide (x = nil) then ret false
      else
        let* p := as_keyValuePair x in
        let* kv := deref p in
        if decide (key kv = k) then
          let* swapped :=
            Value_CompareAndSwap pre (ptr_Value current) (ptr_Value (nextPair kv)) in
          if swapped : bool then
            let* _ := AddInt64_length (-1) in
            ret true
          else ret false
        else Delete_loop_map_go n' k current (nextPair kv)
  end.

Definition Delete_map_go (k : string) : M bool :=
  let* i := index map_go k in
  let* head := pairs_at i in
  let* x := Value_Load head in
  if decide (x = nil) then ret false
  else
    let* p := as_keyValuePair x in
    let* kv := deref p in
    if decide (key kv = k) then
      let* head := pairs_at i in
      let* next := Value_Load (nextPair kv) in
      let* swapped := Value_CompareAndSwap head (ptr_keyValuePair p) next in
      if swapped : bool then
        let* _ := AddInt64_length (-1) in
        ret true
      else ret false
    else
      let* pre := pairs_at i in
      fun s => Delete_loop_map_go (fuel s) k pre (nextPair kv) s.

(** [part_000], [part_001]: the loop. [np] stays [nil] when [pp] is the last
    entry, and [np.key] then dereferences it. *)
Fixpoint Delete_loop_unsafe (n : nat) (k : string) (pp : loc) : M bool :=
  match n with
  | O => diverge
  | S n' =>
      let* ppkv := deref pp in
      let ov := nextPair ppkv in
      let* nv := Value_Load (nextPair ppkv) in
      let* np_npp :=
        (if decide (nv = nil) then ret None
         else
           let* np := as_keyValuePair nv in
           let* npkv := deref np in
           ret (Some (npkv, nextPair npkv))) in
      match np_npp with
      | None => throw NilDereference
      | Some (npkv, npp) =>
          if decide (key npkv = k) then
            let* swapped := CompareAndSwapPointer_nextPair pp ov npp in
            if swapped : bool then
              let* _ := AddInt64_length (-1) in
              ret true
            else ret false
          else
            let* pv := Value_Load (nextPair ppkv) in
            if decide (pv = nil) then ret false
            else
              let* pp' := as_keyValuePair pv in
              Delete_loop_unsafe n' k pp'
      end
  end.

Definition Delete_unsafe (rev : revision) (k : string) : M bool :=
  let* i := index rev k in
  let* ov := pairs_at i in
  let* pv := pairs_at i in
  let* x := Value_Load pv in
  if decide (x = nil) then ret false
  else
    let* p := as_keyValuePair x in
    let* kv := deref p in
    if decide (key kv = k) then
      let* swapped := CompareAndSwapPointer_pairs i ov (nextPair kv) in
      if swapped : bool then
        let* _ := AddInt64_length (-1) in
        ret true
      else ret false
    else
      fun s => Delete_loop_unsafe (fuel s) k p s.

Definition Delete (rev : revision) (k : string) : M bool :=
  match rev with
  | map_go => Delete_map_go k
  | _ => Delete_unsafe rev k
  end.

(** ** Range ([map.go] 129-146, [part_000] 163-180, [part_001] 184-201) *)

(** The visitor [f] is a function of the key, the value and its own state
    of type [A]; it answers whether the traversal goes on. *)
Section Range.
Context {A : Type} (f : string → V → A → bool * A).

(** The inner [for]: the answer says whether the outer loop goes on. *)
Fixpoint Range_chain (n : nat) (current : any) (a : A) : M (bool * A) :=
  match n with
  | O => diverge
  | S n' =>
      let* p := as_keyValuePair current in
      let* kv := deref p in
      let (go, a') := f (key kv) (value kv) a in
      if go : bool then
        let* next := Value_Load (nextPair kv) in
        if decide (next = nil) then ret (true, a')
        else Range_chain n' next a'
      else ret (false, a')
  end.

Fixpoint Range_pairs (ps : list loc) (a : A) : M A :=
  match ps with
  | [] => ret a
  | c :: ps' =>
      let* current := Value_Load c in
      if decide (current = nil) then Range_pairs ps' a
      else
        let* r := (fun s => Range_chain (fuel s) current a s) in
        if fst r : bool then Range_pairs ps' (snd r) else ret (snd r)
  end.

Definition Range (a : A) : M A := fun s => Range_pairs (pairs s) a s.

End Range.

(** ** Length ([map.go] 148-150, [part_000] 182-184, [part_001] 203-205) *)

Definition Length : M Z := fun s => Ok (Map_length s, s).

End Lfm.

Arguments keyValuePair : clear implicits.
Arguments memory : clear implicits.
Arguments M : clear implicits.
Arguments fuel : simpl never.

Notation "'let*' x ':=' m 'in' k" := (bind m (fun x => k))
  (at level 10, x name, m at level 100, k at level 200, only parsing).

(** * The map a heap holds *)

(** ** The shard a key is routed to *)

(** [index] as a function of the number of shards; [None] when it divides
    by zero. *)
Definition shard (rev : revision) (n : Z) (k : string) : option Z :=
  match rev with
  | map_go => if decide (n - 1 = 0) then None else Some (Z.rem (hash63 k) (n - 1))
  | _ =>
      if decide (n = 1) then Some 0
      else if decide (n - 1 = 0) then None else Some (Z.rem (hash63 k) (n - 1))
  end.

(** [map.go] divides by [len(m.pairs) - 1]; the later revisions return 0 for
    a single shard. *)
Definition min_shards (rev : revision) : nat :=
  match rev with map_go => 2 | _ => 1 end.

(** The shard table as a list: for every slot the [atomic.Value] it points
    to and the chain behind it. *)
Abbreviation shards V := (list (loc * list (loc * keyValuePair V))).

Section Abstraction.
Context {V : Type}.
Implicit Types (s : memory V) (c p q : loc) (kv : keyValuePair V) (k : string) (v : V).
Implicit Types (L : list (loc * keyValuePair V)) (sh : shards V).
Implicit Types (l : list (string * V)) (m : list (list (string * V))).

(** ** Chains *)

(** [chain s c L]: from the [atomic.Value] at [c] the chain runs through the
    entries [L] (address and contents, head first) and ends in an empty
    [atomic.Value]. *)
Fixpoint chain s c L : Prop :=
  match L with
  | [] => values s !! c = Some nil
  | e :: L' =>
      values s !! c = Some (ptr_keyValuePair e.1) ∧
      kvs s !! e.1 = Some e.2 ∧
      chain s (nextPair e.2) L'
  end.

(** the keys, the pairs, the addresses of the entries and of their
    [nextPair]s along a chain *)
Definition keys L : list string := (λ e, key e.2) <$> L.
Definition contents L : list (string * V) := (λ e, (key e.2, value e.2)) <$> L.
Definition nodes L : list loc := L.*1.
Definition nexts L : list loc := (λ e, nextPair e.2) <$> L.
(** the [atomic.Value]s of a chain: its head and the [nextPair] of every entry *)
Definition cells c L : list loc := c :: nexts L.
(** the empty [atomic.Value] at the end *)
Definition last_cell c L : loc := List.last (nexts L) c.

(** the first entry of [k] in a chain *)
Fixpoint find_key k L : option (loc * keyValuePair V) :=
  match L with
  | [] => None
  | e :: L' => if decide (key e.2 = k) then Some e else find_key k L'
  end.

(** what the loop of [Load] answers on a chain *)
Definition Load_answer k L : option V * bool :=
  match find_key k L with
  | Some e => (Some (value e.2), true)
  | None => (None, false)
  end.

(** ** The shard table *)

(** all [atomic.Value]s and all entries of the chains *)
Definition shape_cells (sh : shards V) : list loc := concat ((λ x, cells x.1 x.2) <$> sh).
Definition shape_nodes (sh : shards V) : list loc := concat ((λ x, nodes x.2) <$> sh).

(** [heap_inv s sh]: the heap of [s] holds the chains [sh], and no
    [atomic.Value] and no entry is shared between two places. *)
Record heap_inv (s : memory V) (sh : shards V) : Prop := {
  inv_pairs : pairs s = sh.*1;
  inv_chain : ∀ i c L, sh !! i = Some (c, L) → chain s c L;
  inv_cells : NoDup (shape_cells sh);
  inv_nodes : NoDup (shape_nodes sh);
}.

(** the shard table of a fresh map *)
Definition empty_shards (n : nat) : shards V := (λ c, (c, [])) <$> seq 0 n.

(** ** The heap after each write *)

(** the entry [&keyValuePair{key, value, nextPair}] *)
Definition entry k v c : keyValuePair V := {| key := k; value := v; nextPair := c |}.

(** the heap after [&keyValuePair{key, value, new(atomic.Value)}] *)
Definition alloc k v s : memory V :=
  set_kvs (λ ps, ps ++ [entry k v (length (values s))]) (set_values (λ vs, vs ++ [nil]) s).

(** the heap after a successful [CompareAndSwap(nil, pair)] on the last
    [atomic.Value] of a chain *)
Definition link (ct q : loc) s : memory V :=
  set_length (λ n, int64 (n + 1)) (set_values (λ vs, <[ct := ptr_keyValuePair q]> vs) s).

(** [kv] with the value [v] *)
Definition with_value kv v : keyValuePair V :=
  {| key := key kv; value := v; nextPair := nextPair kv |}.

(** the heap after [p.value = value] *)
Definition assign p kv v s : memory V := set_kvs (λ ps, <[p := with_value kv v]> ps) s.

(** the entry [e] of a chain after [p.value = v] *)
Definition upd p v (e : loc * keyValuePair V) : loc * keyValuePair V :=
  if decide (e.1 = p) then (e.1, with_value e.2 v) else e.

(** the heap after [map.go] swapped the second entry into the head
    [atomic.Value] *)
Definition swap_head c p s : memory V :=
  set_length (λ n, int64 (n + -1)) (set_values (λ vs, <[c := ptr_keyValuePair p]> vs) s).

(** the heap after the later revisions redirected [m.pairs[i]] *)
Definition swing (i : nat) c s : memory V :=
  set_length (λ n, int64 (n + -1)) (set_pairs (λ ps, <[i := c]> ps) s).

(** [kv] with the [nextPair] [c] *)
Definition with_next kv c : keyValuePair V :=
  {| key := key kv; value := value kv; nextPair := c |}.

(** the heap after the later revisions redirected [pp.nextPair] *)
Definition unlink p kv c s : memory V :=
  set_length (λ n, int64 (n + -1)) (set_kvs (λ ps, <[p := with_next kv c]> ps) s).

(** the entry in front of the first entry of [k] behind [pe], and that entry *)
Fixpoint find_pred k (pe : loc * keyValuePair V) L
  : option ((loc * keyValuePair V) * (loc * keyValuePair V)) :=
  match L with
  | [] => None
  | e :: L' => if decide (key e.2 = k) then Some (pe, e) else find_pred k e L'
  end.

(** the chain from [pe] on once the first entry of [k] behind it is gone *)
Fixpoint unlink_chain k (pe : loc * keyValuePair V) L : list (loc * keyValuePair V) :=
  match L with
  | [] => [pe]
  | e :: L' =>
      if decide (key e.2 = k) then (pe.1, with_next pe.2 (nextPair e.2)) :: L'
      else pe :: unlink_chain k e L'
  end.

(** ** Association lists *)

(** For every shard the association list of its chain, head first. *)

(** the value of the first pair of [k] *)
Fixpoint assoc k l : option V :=
  match l with
  | [] => None
  | x :: l' => if decide (x.1 = k) then Some x.2 else assoc k l'
  end.

(** overwrite the value of [k], or append [(k, v)] *)
Fixpoint put k v l : list (string * V) :=
  match l with
  | [] => [(k, v)]
  | x :: l' => if decide (x.1 = k) then (x.1, v) :: l' else x :: put k v l'
  end.

(** drop the first entry of [k] *)
Fixpoint remove k l : list (string * V) :=
  match l with
  | [] => []
  | x :: l' => if decide (x.1 = k) then l' else x :: remove k l'
  end.

(** the association lists of the chains *)
Definition view sh : list (list (string * V)) := (λ x, contents x.2) <$> sh.

(** [rep rev s m]: the heap of [s] holds the map [m], shard by shard; no key
    occurs twice in a shard, every key sits in the shard [index] routes it to,
    and [m.length] counts the entries. *)
Record rep (rev : revision) s m : Prop := {
  rep_heap : ∃ sh, heap_inv s sh ∧ m = view sh;
  rep_keys : ∀ i l, m !! i = Some l → NoDup l.*1;
  rep_index : ∀ i l k, m !! i = Some l → k ∈ l.*1 →
      shard rev (Z.of_nat (length m)) k = Some (Z.of_nat i);
  rep_length : Map_length s = int64 (Z.of_nat (length (concat m)));
}.

(** what [Load] answers for a key bound to [o] *)
Definition found (o : option V) : option V * bool :=
  match o with
  | Some v => (Some v, true)
  | None => (None, false)
  end.

(** ** The states a program can reach *)

(** Every state a single-threaded program gets the map into: a fresh map,
    and the state after any operation of the revision that returned. *)
Inductive reachable (rev : revision) : memory V → Prop :=
| reach_New size s :
    New size = Ok s → reachable rev s
| reach_Store s k v s' :
    reachable rev s → Store rev k v s = Ok (tt, s') → reachable rev s'
| reach_LoadOrStore s k v r s' :
    reachable rev s → LoadOrStore rev k v s = Ok (r, s') → reachable rev s'
| reach_LoadAndStore s k v r s' :
    rev ≠ map_go →
    reachable rev s → LoadAndStore k v s = Ok (r, s') → reachable rev s'
| reach_StoreNotExists s k v r s' :
    rev = part_001 →
    reachable rev s → StoreNotExists k v s = Ok (r, s') → reachable rev s'
| reach_Delete s k r s' :
    reachable rev s → Delete rev k s = Ok (r, s') → reachable rev s'.

(** [index] routes [k] to shard [i], whose association list is [l] *)
Definition routed rev m k (i : nat) l : Prop :=
  shard rev (Z.of_nat (length m)) k = Some (Z.of_nat i) ∧ m !! i = Some l.

(** ** Sequences of calls *)

Section Visit.
Context {A : Type} (f : string → V → A → bool * A).
Implicit Types (es : list (string * V)) (a : A).

(** Calling the visitor on the pairs of a list, one after the other, until
    it answers [false]; the boolean says whether it never did. *)
Fixpoint visit es a : bool * A :=
  match es with
  | [] => (true, a)
  | x :: es' =>
      let (go, a') := f x.1 x.2 a in
      if go : bool then visit es' a' else (false, a')
  end.

End Visit.

(** [Store] for every value of a list, in order, on one key *)
Fixpoint Stores (rev : revision) k (vs : list V) : M V unit :=
  match vs with
  | [] => ret tt
  | v :: vs' =>
      let* _ := Store rev k v in
      Stores rev k vs'
  end.

(** [Store] for every pair of a list, in order *)
Fixpoint Store_all (rev : revision) (kvl : list (string * V)) : M V unit :=
  match kvl with
  | [] => ret tt
  | x :: kvl' =>
      let* _ := Store rev x.1 x.2 in
      Store_all rev kvl'
  end.

(** the outcome of a call with [g] applied to its answer *)
Definition map_answer {A B} (g : A → B) (r : result (A * memory V)) : result (B * memory V) :=
  match r with
  | Ok (a, s) => Ok (g a, s)
  | Panic e => Panic e
  | Diverge => Diverge
  end.

End Abstraction.

(** ** Small maps *)

(** The values are integers. The states are written out; every one of them
    is computed from [New] by the operations named. *)
Section States.
Local Open Scope string_scope.
Local Open Scope Z_scope.

(** [New(4)], then [Store("a", 1)], then [Store("b", 2)] in [map.go]:
    the example of the specification. ["a"] goes to shard 1 and ["b"] to
    shard 0. *)
Definition four_shards : memory Z :=
  {| values := [nil; nil; nil; nil]; kvs := [];
     pairs := [0; 1; 2; 3]%nat; Map_length := 0 |}.

Definition four_a : memory Z :=
  {| values := [nil; ptr_keyValuePair 0; nil; nil; nil];
     kvs := [{| key := "a"; value := 1; nextPair := 4 |}];
     pairs := [0; 1; 2; 3]%nat; Map_length := 1 |}.

Definition four_a_b : memory Z :=
  {| values := [ptr_keyValuePair 1; ptr_keyValuePair 0; nil; nil; nil; nil];
     kvs := [{| key := "a"; value := 1; nextPair := 4 |};
             {| key := "b"; value := 2; nextPair := 5 |}];
     pairs := [0; 1; 2; 3]%nat; Map_length := 2 |}.

(** [New(2)], then [Store("a", 1)], then [Store("b", 2)] in [map.go]:
    with two shards every key goes to shard 0, ["b"] is linked behind
    ["a"]. *)
Definition two_shards : memory Z :=
  {| values := [nil; nil]; kvs := []; pairs := [0; 1]%nat; Map_length := 0 |}.

Definition two_a : memory Z :=
  {| values := [ptr_keyValuePair 0; nil; nil];
     kvs := [{| key := "a"; value := 1; nextPair := 2 |}];
     pairs := [0; 1]%nat; Map_length := 1 |}.

Definition two_a_b : memory Z :=
  {| values := [ptr_keyValuePair 0; nil; ptr_keyValuePair 1; nil];
     kvs := [{| key := "a"; value := 1; nextPair := 2 |};
             {| key := "b"; value := 2; nextPair := 3 |}];
     pairs := [0; 1]%nat; Map_length := 2 |}.

(** [New(4)], [Store("a", 1)], [Store("b", 2)], then [Delete("a")] in the
    later revisions: slot 1 points to the [nextPair] of the entry of ["a"]. *)
Definition four_b : memory Z :=
  {| values := [ptr_keyValuePair 1; ptr_keyValuePair 0; nil; nil; nil; nil];
     kvs := [{| key := "a"; value := 1; nextPair := 4 |};
             {| key := "b"; value := 2; nextPair := 5 |}];
     pairs := [0; 4; 2; 3]%nat; Map_length := 1 |}.

(** [New(2)], [Store("a", 1)], [Store("b", 2)], then [Delete("a")] in
    [map.go]: the head [atomic.Value] holds the entry of ["b"]. *)
Definition two_b : memory Z :=
  {| values := [ptr_keyValuePair 1; nil; ptr_keyValuePair 1; nil];
     kvs := [{| key := "a"; value := 1; nextPair := 2 |};
             {| key := "b"; value := 2; nextPair := 3 |}];
     pairs := [0; 1]%nat; Map_length := 1 |}.

(** [New(1)], then [Store("a", 1)] in the later revisions. *)
Definition one_shard : memory Z :=
  {| values := [nil]; kvs := []; pairs := [0]%nat; Map_length := 0 |}.

Definition one_a : memory Z :=
  {| values := [ptr_keyValuePair 0; nil];
     kvs := [{| key := "a"; value := 1; nextPair := 1 |}];
     pairs := [0]%nat; Map_length := 1 |}.

End States.

(** * Verification *)

Section Shape.
Context {V : Type}.
Implicit Types (s : memory V) (c p : loc) (kv : keyValuePair V) (k : string).
Implicit Types (L : list (loc * keyValuePair V)).

(** ** Chains *)

Lemma chain_functional s c L1 L2 : chain s c L1 → chain s c L2 → L1 = L2.
Proof.
  revert c L2. induction L1 as [|[p kv] L1 IH]; intros c [|[p' kv'] L2]; simpl; try done.
  - intros H [H' _]. congruence.
  - intros [H _] H'. congruence.
  - intros (Hc & Hp & Hn) (Hc' & Hp' & Hn').
    assert (p' = p) by congruence. subst p'.
    assert (kv' = kv) by congruence. subst kv'.
    f_equal. eauto.
Qed.

(** A chain only depends on the objects it runs through. *)
Lemma chain_agree s s' c L :
  chain s c L →
  (∀ x, x ∈ cells c L → values s' !! x = values s !! x) →
  (∀ x, x ∈ nodes L → kvs s' !! x = kvs s !! x) →
  chain s' c L.
Proof.
  revert c. induction L as [|[p kv] L IH]; simpl; intros c.
  - intros H Hv _. rewrite Hv; [done|]. unfold cells. simpl. apply list_elem_of_here.
  - intros (Hc & Hp & Hn) Hv Hk. split_and!.
    + rewrite Hv; [done|]. apply list_elem_of_here.
    + rewrite Hk; [done|]. apply list_elem_of_here.
    + apply IH; [done|..].
      * intros x Hx. apply Hv. unfold cells in *. simpl. by apply list_elem_of_further.
      * intros x Hx. apply Hk. by apply list_elem_of_further.
Qed.

Lemma chain_cells_lt s c L x : chain s c L → x ∈ cells c L → (x < length (values s))%nat.
Proof.
  revert c. induction L as [|[p kv] L IH]; simpl; intros c.
  - intros H Hx. apply list_elem_of_singleton in Hx. subst. by eapply lookup_lt_Some.
  - intros (Hc & Hp & Hn) Hx. unfold cells in Hx. simpl in Hx.
    apply elem_of_cons in Hx as [->|Hx]; [by eapply lookup_lt_Some|].
    by eapply IH.
Qed.

Lemma chain_nodes_lt s c L x : chain s c L → x ∈ nodes L → (x < length (kvs s))%nat.
Proof.
  revert c. induction L as [|[p kv] L IH]; simpl; intros c.
  - intros _ Hx. by apply not_elem_of_nil in Hx.
  - intros (Hc & Hp & Hn) Hx.
    apply elem_of_cons in Hx as [->|Hx]; [by eapply lookup_lt_Some|].
    by eapply IH.
Qed.

Lemma chain_length s c L : chain s c L → NoDup (nodes L) → (length L < fuel s)%nat.
Proof.
  intros Hc Hnd. unfold fuel.
  assert (nodes L ⊆+ seq 0 (length (kvs s))) as Hsub.
  { apply NoDup_submseteq; [done|]. intros x Hx. apply elem_of_seq.
    pose proof (chain_nodes_lt _ _ _ _ Hc Hx). lia. }
  apply submseteq_length in Hsub. unfold nodes in Hsub.
  rewrite length_fmap, length_seq in Hsub. lia.
Qed.

Lemma last_cell_cons c e L : last_cell c (e :: L) = last_cell (nextPair e.2) L.
Proof.
  unfold last_cell. simpl. destruct (nexts L) as [|x l] eqn:E; [done|].
  revert x E. generalize (nexts L). intros _ x _. revert x.
  induction l as [|y l IH]; intros x; simpl; [done|]. destruct l; [done|]. apply (IH y).
Qed.

Lemma last_cell_in c L : last_cell c L ∈ cells c L.
Proof.
  revert c. induction L as [|e L IH]; intros c.
  - apply list_elem_of_here.
  - rewrite last_cell_cons. unfold cells. simpl. apply list_elem_of_further. apply IH.
Qed.

Lemma chain_last_cell s c L : chain s c L → values s !! last_cell c L = Some nil.
Proof.
  revert c. induction L as [|e L IH]; intros c; simpl; [done|].
  intros (_ & _ & Hn). rewrite last_cell_cons. by apply IH.
Qed.

End Shape.

Section Loops.
Context {V : Type}.
Implicit Types (s : memory V) (c p : loc) (kv : keyValuePair V) (k : string).
Implicit Types (L : list (loc * keyValuePair V)).

Lemma Load_loop_spec s c L k n :
  chain s c L → (length L < n)%nat →
  Load_loop n k c s = Ok (Load_answer k L, s).
Proof.
  revert c n. induction L as [|[p kv] L IH]; intros c [|n] Hc Hn; simpl in *; try lia.
  - unfold bind, Value_Load. rewrite Hc. simpl. done.
  - destruct Hc as (Hc & Hp & Hnx). unfold bind, Value_Load, deref. rewrite Hc. simpl.
    rewrite Hp. unfold Load_answer. simpl. case_decide; [done|].
    apply IH; [done|lia].
Qed.

End Loops.

(** ** Lists of lists without repetition *)

Section Concat.
Context {A : Type}.
Implicit Types (l : list A) (ls : list (list A)).

Lemma elem_of_concat_lookup ls x : x ∈ concat ls ↔ ∃ i l, ls !! i = Some l ∧ x ∈ l.
Proof.
  induction ls as [|l0 ls IH]; simpl.
  - split; [by intros ?%not_elem_of_nil|]. by intros (i & l & ? & _).
  - rewrite elem_of_app, IH. split.
    + intros [H|(i & l & Hi & Hx)]; [by exists 0%nat, l0|by exists (S i), l].
    + intros ([|i] & l & Hi & Hx); simpl in Hi; [left; congruence|right; eauto].
Qed.

Lemma NoDup_concat_lookup ls i l : NoDup (concat ls) → ls !! i = Some l → NoDup l.
Proof.
  revert i. induction ls as [|l0 ls IH]; intros [|i]; simpl; try done.
  - intros (H & _ & _)%NoDup_app [= ->]. done.
  - intros (_ & _ & H)%NoDup_app Hi. eauto.
Qed.

Lemma NoDup_concat_disjoint ls i j l l' x :
  NoDup (concat ls) → ls !! i = Some l → ls !! j = Some l' → i ≠ j →
  x ∈ l → x ∉ l'.
Proof.
  revert i j. induction ls as [|l0 ls IH]; intros [|i] [|j]; simpl; try done.
  - intros (_ & H & _)%NoDup_app [= ->] Hj _ Hx Hx'.
    apply (H x Hx). apply elem_of_concat_lookup. eauto.
  - intros (_ & H & _)%NoDup_app Hi [= ->] _ Hx Hx'.
    apply (H x Hx'). apply elem_of_concat_lookup. eauto.
  - intros (_ & _ & H)%NoDup_app Hi Hj Hij. apply (IH i j); auto.
Qed.

Lemma elem_of_concat_insert ls i l x :
  x ∈ concat (<[i := l]> ls) → x ∈ l ∨ x ∈ concat ls.
Proof.
  revert i. induction ls as [|l0 ls IH]; intros [|i]; simpl; auto.
  - rewrite !elem_of_app. tauto.
  - rewrite !elem_of_app. intros [H|H]; [tauto|]. apply IH in H. tauto.
Qed.

Lemma NoDup_concat_insert ls i l l' :
  ls !! i = Some l → NoDup (concat ls) → NoDup l' →
  (∀ x, x ∈ l' → x ∈ l ∨ x ∉ concat ls) →
  NoDup (concat (<[i := l']> ls)).
Proof.
  revert i. induction ls as [|l0 ls IH]; intros [|i]; simpl; try done.
  - intros [= ->] (Hl & Hd & Hr)%NoDup_app Hl' Hx. apply NoDup_app. split_and!; try done.
    intros x Hin. destruct (Hx x Hin) as [H|H]; [by apply Hd|].
    rewrite elem_of_app in H. tauto.
  - intros Hi (Hl & Hd & Hr)%NoDup_app Hl' Hx. apply NoDup_app. split_and!; try done.
    + intros x Hin Hin'. apply elem_of_concat_insert in Hin' as [Hin'|Hin'].
      * destruct (Hx x Hin') as [H|H].
        -- apply (Hd x Hin). apply elem_of_concat_lookup. eauto.
        -- apply H. rewrite elem_of_app. tauto.
      * by apply (Hd x Hin).
    + apply (IH i); try done. intros x Hin. destruct (Hx x Hin) as [H|H]; [tauto|].
      right. rewrite elem_of_app in H. tauto.
Qed.

Lemma length_concat_insert ls i l l' :
  ls !! i = Some l →
  (length (concat (<[i := l']> ls)) + length l = length (concat ls) + length l')%nat.
Proof.
  revert i. induction ls as [|l0 ls IH]; intros [|i]; simpl; try done.
  - intros [= ->]. rewrite !length_app. lia.
  - intros Hi. rewrite !length_app. specialize (IH i Hi). lia.
Qed.

End Concat.

(** ** The shard a key is routed to *)

Lemma hash63_nonneg k : 0 ≤ hash63 k.
Proof. unfold hash63. apply Z.land_nonneg. right. lia. Qed.

Lemma shard_in_range rev n k :
  Z.of_nat (min_shards rev) ≤ n → ∃ i, shard rev n k = Some i ∧ 0 ≤ i < n.
Proof.
  intros Hn. pose proof (hash63_nonneg k) as Hh.
  assert (1 < n → 0 ≤ Z.rem (hash63 k) (n - 1) < n) as Hrem.
  { intros ?. pose proof (Z.rem_bound_pos (hash63 k) (n - 1)). lia. }
  destruct rev; simpl in *; unfold shard; repeat case_decide; try lia; eauto with lia.
Qed.

Lemma shard_not_last rev n k i : 1 < n → shard rev n k = Some i → 0 ≤ i < n - 1.
Proof.
  intros Hn. pose proof (hash63_nonneg k) as Hh.
  pose proof (Z.rem_bound_pos (hash63 k) (n - 1)).
  destruct rev; unfold shard; repeat case_decide; intros [= <-]; lia.
Qed.

Section Invariant.
Context {V : Type}.
Implicit Types (s : memory V) (c p : loc) (kv : keyValuePair V) (k : string).
Implicit Types (L : list (loc * keyValuePair V)).

Lemma index_spec rev k s :
  index rev k s =
    match shard rev (Z.of_nat (length (pairs s))) k with
    | Some i => Ok (i, s)
    | None => Panic DivideByZero
    end.
Proof.
  destruct rev; unfold index, shard, bind, len_pairs, int_rem; simpl;
    repeat case_decide; try done; lia.
Qed.

Lemma new_Values_spec n s :
  new_Values n s =
    Ok (seq (length (values s)) n, set_values (λ vs, vs ++ replicate n nil) s).
Proof.
  revert s. induction n as [|n IH]; intros s; simpl.
  - unfold ret, set_values. rewrite app_nil_r. by destruct s.
  - unfold bind, new_Value. rewrite IH. unfold ret, set_values. simpl.
    rewrite length_app. simpl. rewrite Nat.add_1_r, <- app_assoc. done.
Qed.

Lemma New_spec (size : Z) :
  0 ≤ size →
  New (V:=V) size =
    Ok {| values := replicate (Z.to_nat size) nil; kvs := [];
          pairs := seq 0 (Z.to_nat size); Map_length := 0 |}.
Proof.
  intros H. unfold New. case_decide; [lia|]. rewrite new_Values_spec. done.
Qed.

Lemma empty_shards_lookup n i c L :
  empty_shards n !! i = Some (c, L) → c = i ∧ L = [] ∧ (i < n)%nat.
Proof.
  unfold empty_shards. rewrite list_lookup_fmap.
  destruct (seq 0 n !! i) as [x|] eqn:E; simpl; [|done].
  apply lookup_seq in E as [-> ?]. by intros [= <- <-].
Qed.

Lemma shape_cells_empty n : shape_cells (empty_shards (V:=V) n) = seq 0 n.
Proof.
  unfold shape_cells, empty_shards. generalize 0%nat.
  induction n as [|n IH]; intros m; simpl; [done|]. by rewrite IH.
Qed.

Lemma shape_nodes_empty n : shape_nodes (empty_shards (V:=V) n) = [].
Proof.
  unfold shape_nodes, empty_shards. generalize 0%nat.
  induction n as [|n IH]; intros m; simpl; [done|]. by rewrite IH.
Qed.

Lemma New_heap_inv size s : New size = Ok s → heap_inv s (empty_shards (Z.to_nat size)).
Proof.
  destruct (decide (0 ≤ size)) as [H|H].
  2:{ unfold New. case_decide; [done|lia]. }
  rewrite New_spec by done. intros [= <-]. split; simpl.
  - unfold empty_shards. rewrite <- list_fmap_compose. by rewrite list_fmap_id.
  - intros i c L (-> & -> & Hi)%empty_shards_lookup. simpl.
    by apply lookup_replicate_2.
  - rewrite shape_cells_empty. apply NoDup_seq.
  - rewrite shape_nodes_empty. constructor.
Qed.

Lemma shape_cells_insert (sh : shards V) i c L :
  shape_cells (<[i := (c, L)]> sh) = concat (<[i := cells c L]> ((λ x, cells x.1 x.2) <$> sh)).
Proof. unfold shape_cells. by rewrite list_fmap_insert. Qed.

Lemma shape_nodes_insert (sh : shards V) i c L :
  shape_nodes (<[i := (c, L)]> sh) = concat (<[i := nodes L]> ((λ x, nodes x.2) <$> sh)).
Proof. unfold shape_nodes. by rewrite list_fmap_insert. Qed.

Lemma elem_of_shape_cells (sh : shards V) i c L x :
  sh !! i = Some (c, L) → x ∈ cells c L → x ∈ shape_cells sh.
Proof.
  intros Hi Hx. apply elem_of_concat_lookup. exists i, (cells c L). split; [|done].
  by rewrite list_lookup_fmap, Hi.
Qed.

Lemma elem_of_shape_nodes (sh : shards V) i c L x :
  sh !! i = Some (c, L) → x ∈ nodes L → x ∈ shape_nodes sh.
Proof.
  intros Hi Hx. apply elem_of_concat_lookup. exists i, (nodes L). split; [|done].
  by rewrite list_lookup_fmap, Hi.
Qed.

Lemma shape_cells_disjoint (sh : shards V) i j c L c' L' x :
  NoDup (shape_cells sh) → sh !! i = Some (c, L) → sh !! j = Some (c', L') → i ≠ j →
  x ∈ cells c L → x ∉ cells c' L'.
Proof.
  intros Hnd Hi Hj Hij. eapply NoDup_concat_disjoint; [done| | |done].
  - by rewrite list_lookup_fmap, Hi.
  - by rewrite list_lookup_fmap, Hj.
Qed.

Lemma shape_nodes_disjoint (sh : shards V) i j c L c' L' x :
  NoDup (shape_nodes sh) → sh !! i = Some (c, L) → sh !! j = Some (c', L') → i ≠ j →
  x ∈ nodes L → x ∉ nodes L'.
Proof.
  intros Hnd Hi Hj Hij. eapply NoDup_concat_disjoint; [done| | |done].
  - by rewrite list_lookup_fmap, Hi.
  - by rewrite list_lookup_fmap, Hj.
Qed.

Lemma heap_inv_cells_lt s sh x : heap_inv s sh → x ∈ shape_cells sh → (x < length (values s))%nat.
Proof.
  intros H (i & l & Hi & Hx)%elem_of_concat_lookup.
  rewrite list_lookup_fmap in Hi. destruct (sh !! i) as [[c L]|] eqn:E; [|done].
  simpl in Hi. injection Hi as <-. eapply chain_cells_lt; [|done]. by eapply inv_chain.
Qed.

Lemma heap_inv_nodes_lt s sh x : heap_inv s sh → x ∈ shape_nodes sh → (x < length (kvs s))%nat.
Proof.
  intros H (i & l & Hi & Hx)%elem_of_concat_lookup.
  rewrite list_lookup_fmap in Hi. destruct (sh !! i) as [[c L]|] eqn:E; [|done].
  simpl in Hi. injection Hi as <-. eapply chain_nodes_lt; [|done]. by eapply inv_chain.
Qed.

(** Replacing the chain of one slot: the objects of the other chains must
    be untouched, and the new chain may only use objects of the old one or
    objects no chain uses. *)
Lemma heap_inv_update s s' sh i c L c' L' :
  heap_inv s sh → sh !! i = Some (c, L) →
  pairs s' = <[i := c']> (pairs s) →
  chain s' c' L' →
  (∀ x, x ∈ shape_cells sh → x ∉ cells c L → values s' !! x = values s !! x) →
  (∀ x, x ∈ shape_nodes sh → x ∉ nodes L → kvs s' !! x = kvs s !! x) →
  NoDup (cells c' L') → (∀ x, x ∈ cells c' L' → x ∈ cells c L ∨ x ∉ shape_cells sh) →
  NoDup (nodes L') → (∀ x, x ∈ nodes L' → x ∈ nodes L ∨ x ∉ shape_nodes sh) →
  heap_inv s' (<[i := (c', L')]> sh).
Proof.
  intros [Hp Hch Hcs Hns] Hi Hp' Hc' Hfv Hfk Hndc Hsubc Hndn Hsubn.
  assert (i < length sh)%nat as Hlt by (by eapply lookup_lt_Some).
  split.
  - by rewrite Hp', Hp, list_fmap_insert.
  - intros j cj Lj Hj. destruct (decide (i = j)) as [->|Hij].
    + rewrite list_lookup_insert_eq in Hj by done. by injection Hj as <- <-.
    + rewrite list_lookup_insert_ne in Hj by done.
      eapply chain_agree; [by eapply Hch|..].
      * intros x Hx. apply Hfv; [by eapply elem_of_shape_cells|].
        by eapply (shape_cells_disjoint sh j i).
      * intros x Hx. apply Hfk; [by eapply elem_of_shape_nodes|].
        by eapply (shape_nodes_disjoint sh j i).
  - rewrite shape_cells_insert. eapply NoDup_concat_insert; [|done..].
    by rewrite list_lookup_fmap, Hi.
  - rewrite shape_nodes_insert. eapply NoDup_concat_insert; [|done..].
    by rewrite list_lookup_fmap, Hi.
Qed.

End Invariant.

(** ** Insertion and update *)

Section Insert.
Context {V : Type}.
Implicit Types (s : memory V) (c p q : loc) (kv : keyValuePair V) (k : string) (v : V).
Implicit Types (L : list (loc * keyValuePair V)) (sh : shards V).

Lemma new_pair_spec k v s : new_pair k v s = Ok (length (kvs s), alloc k v s).
Proof. done. Qed.

Lemma alloc_values_lookup k v s x :
  (x < length (values s))%nat → values (alloc k v s) !! x = values s !! x.
Proof. intros H. simpl. by rewrite lookup_app_l. Qed.

Lemma alloc_kvs_lookup k v s x :
  (x < length (kvs s))%nat → kvs (alloc k v s) !! x = kvs s !! x.
Proof. intros H. simpl. by rewrite lookup_app_l. Qed.

Lemma alloc_new_entry k v s :
  kvs (alloc k v s) !! length (kvs s) = Some (entry k v (length (values s))).
Proof. simpl. rewrite lookup_app_r by lia. by rewrite Nat.sub_diag. Qed.

Lemma alloc_new_value k v s : values (alloc k v s) !! length (values s) = Some nil.
Proof. simpl. rewrite lookup_app_r by lia. by rewrite Nat.sub_diag. Qed.

Lemma heap_inv_alloc k v s sh : heap_inv s sh → heap_inv (alloc k v s) sh.
Proof.
  intros H. split; try apply H.
  intros i c L Hi. eapply chain_agree; [by eapply inv_chain|..].
  - intros x Hx. apply alloc_values_lookup. eapply chain_cells_lt; [|done]. by eapply inv_chain.
  - intros x Hx. apply alloc_kvs_lookup. eapply chain_nodes_lt; [|done]. by eapply inv_chain.
Qed.

Lemma cells_cons c e L : cells c (e :: L) = c :: cells (nextPair e.2) L.
Proof. done. Qed.

Lemma chain_link s c L q kvq :
  chain s c L → NoDup (cells c L) →
  kvs s !! q = Some kvq → values s !! nextPair kvq = Some nil →
  nextPair kvq ∉ cells c L →
  chain (link (last_cell c L) q s) c (L ++ [(q, kvq)]).
Proof.
  intros Hc Hnd Hq Hn. revert c Hc Hnd. induction L as [|e L IH]; intros c Hc Hnd Hfresh.
  - simpl in *. unfold last_cell. simpl.
    apply not_elem_of_cons in Hfresh as [Hne _]. split_and!; [|done|].
    + apply list_lookup_insert_eq. by eapply lookup_lt_Some.
    + by rewrite list_lookup_insert_ne.
  - rewrite last_cell_cons. rewrite cells_cons in Hnd, Hfresh.
    apply NoDup_cons in Hnd as [Hc1 Hnd]. apply not_elem_of_cons in Hfresh as [Hne Hfresh].
    destruct Hc as (Hv & Hk & Hnx). simpl. split_and!; [|done|by apply IH].
    rewrite list_lookup_insert_ne; [done|].
    intros <-. apply Hc1. apply last_cell_in.
Qed.

Lemma chain_assign s c L p kv v :
  chain s c L → kvs s !! p = Some kv →
  chain (assign p kv v s) c (upd p v <$> L).
Proof.
  intros Hc Hp. revert c Hc. induction L as [|[p' kv'] L IH]; intros c Hc; [done|].
  destruct Hc as (Hv & Hk & Hnx). simpl in Hv, Hk, Hnx.
  rewrite fmap_cons. unfold upd at 1. simpl. case_decide as He.
  - subst p'. assert (kv' = kv) as -> by congruence. simpl.
    split_and!; [done| |by apply IH].
    apply list_lookup_insert_eq. by eapply lookup_lt_Some.
  - simpl. split_and!; [done| |by apply IH]. by rewrite list_lookup_insert_ne.
Qed.

Lemma nexts_upd p v L : nexts (upd p v <$> L) = nexts L.
Proof.
  unfold nexts. rewrite <- list_fmap_compose. apply list_fmap_ext.
  intros i e _. unfold upd. simpl. by case_decide.
Qed.

Lemma nodes_upd p v L : nodes (upd p v <$> L) = nodes L.
Proof.
  unfold nodes. rewrite <- list_fmap_compose. apply list_fmap_ext.
  intros i e _. unfold upd. simpl. by case_decide.
Qed.

Lemma keys_upd p v L : keys (upd p v <$> L) = keys L.
Proof.
  unfold keys. rewrite <- list_fmap_compose. apply list_fmap_ext.
  intros i e _. unfold upd. simpl. by case_decide.
Qed.

Lemma Value_Load_ok s c x : values s !! c = Some x → Value_Load c s = Ok (x, s).
Proof. intros H. unfold Value_Load. by rewrite H. Qed.

Lemma deref_ok s p kv : kvs s !! p = Some kv → deref p s = Ok (kv, s).
Proof. intros H. unfold deref. by rewrite H. Qed.

(** The walk of the four inserting loops: on a chain whose last
    [atomic.Value] is reached the swap succeeds. *)
Lemma CompareAndSwap_nil_empty s c q :
  values s !! c = Some nil →
  Value_CompareAndSwap c nil (ptr_keyValuePair q) s
  = Ok (true, set_values (λ vs, <[c := ptr_keyValuePair q]> vs) s).
Proof. intros H. unfold Value_CompareAndSwap. simpl. by rewrite H. Qed.

Lemma CompareAndSwap_nil_taken s c q p :
  values s !! c = Some (ptr_keyValuePair p) →
  Value_CompareAndSwap c nil (ptr_keyValuePair q) s = Ok (false, s).
Proof. intros H. unfold Value_CompareAndSwap. simpl. by rewrite H. Qed.

Lemma find_key_Some k L e : find_key k L = Some e → key e.2 = k ∧ e ∈ L.
Proof.
  induction L as [|e' L IH]; simpl; [done|]. case_decide.
  - intros [= ->]. split; [done|]. apply list_elem_of_here.
  - intros [? ?]%IH. split; [done|]. by apply list_elem_of_further.
Qed.

Lemma find_key_None k L : find_key k L = None ↔ k ∉ keys L.
Proof.
  induction L as [|e' L IH]; simpl.
  - split; [intros _; apply not_elem_of_nil|done].
  - rewrite not_elem_of_cons. case_decide as H.
    + split; [done|]. intros [Hne _]. by destruct Hne.
    + rewrite IH. split; [intros ?; split; [congruence|done]|by intros [_ ?]].
Qed.

Lemma Store_loop_spec s c L k v q n :
  chain s c L → (length L < n)%nat →
  Store_loop n k v q c s =
    Ok (tt, match find_key k L with
            | None => link (last_cell c L) q s
            | Some e => assign e.1 e.2 v s
            end).
Proof.
  revert c n. induction L as [|e L IH]; intros c [|n] Hc Hn; simpl in *; try lia.
  - unfold bind. by rewrite CompareAndSwap_nil_empty.
  - destruct Hc as (Hc & Hp & Hnx). unfold bind.
    rewrite (CompareAndSwap_nil_taken _ _ _ _ Hc). unfold Value_Load, deref. rewrite Hc. simpl.
    rewrite Hp. case_decide.
    + unfold set_value. by rewrite Hp.
    + rewrite last_cell_cons. apply IH; [done|lia].
Qed.

Lemma LoadOrStore_loop_spec s c L k v q n :
  chain s c L → (length L < n)%nat →
  LoadOrStore_loop n k v q c s =
    match find_key k L with
    | None => Ok ((v, true), link (last_cell c L) q s)
    | Some e => Ok ((value e.2, false), s)
    end.
Proof.
  revert c n. induction L as [|e L IH]; intros c [|n] Hc Hn; simpl in *; try lia.
  - unfold bind. by rewrite CompareAndSwap_nil_empty.
  - destruct Hc as (Hc & Hp & Hnx). unfold bind.
    rewrite (CompareAndSwap_nil_taken _ _ _ _ Hc). unfold Value_Load, deref. rewrite Hc. simpl.
    rewrite Hp. case_decide; [done|].
    rewrite last_cell_cons. apply IH; [done|lia].
Qed.

Lemma LoadAndStore_loop_spec s c L k v q n :
  chain s c L → (length L < n)%nat →
  LoadAndStore_loop n k v q c s =
    match find_key k L with
    | None => Ok (None, link (last_cell c L) q s)
    | Some e => Ok (Some (value e.2), assign e.1 e.2 v s)
    end.
Proof.
  revert c n. induction L as [|e L IH]; intros c [|n] Hc Hn; simpl in *; try lia.
  - unfold bind. by rewrite CompareAndSwap_nil_empty.
  - destruct Hc as (Hc & Hp & Hnx). unfold bind.
    rewrite (CompareAndSwap_nil_taken _ _ _ _ Hc). unfold Value_Load, deref. rewrite Hc. simpl.
    rewrite Hp. case_decide.
    + unfold set_value. by rewrite Hp.
    + rewrite last_cell_cons. apply IH; [done|lia].
Qed.

Lemma StoreNotExists_loop_spec s c L k q n :
  chain s c L → (length L < n)%nat →
  StoreNotExists_loop n k q c s =
    match find_key k L with
    | None => Ok (true, link (last_cell c L) q s)
    | Some e => Ok (false, s)
    end.
Proof.
  revert c n. induction L as [|e L IH]; intros c [|n] Hc Hn; simpl in *; try lia.
  - unfold bind. by rewrite CompareAndSwap_nil_empty.
  - destruct Hc as (Hc & Hp & Hnx). unfold bind.
    rewrite (CompareAndSwap_nil_taken _ _ _ _ Hc). unfold Value_Load, deref. rewrite Hc. simpl.
    rewrite Hp. case_decide; [done|].
    rewrite last_cell_cons. apply IH; [done|lia].
Qed.

End Insert.

(** ** Association lists *)

Section Model.
Context {V : Type}.
Implicit Types (k : string) (v : V) (l : list (string * V)) (m : list (list (string * V))).

Lemma assoc_None k l : assoc k l = None ↔ k ∉ l.*1.
Proof.
  induction l as [|x l IH]; simpl.
  - split; [intros _; apply not_elem_of_nil|done].
  - rewrite not_elem_of_cons. case_decide as H.
    + split; [done|]. intros [Hne _]. by destruct Hne.
    + rewrite IH. split; [intros ?; split; [congruence|done]|by intros [_ ?]].
Qed.

Lemma assoc_Some_elem k v l : assoc k l = Some v → (k, v) ∈ l.
Proof.
  induction l as [|[k' v'] l IH]; simpl; [done|]. case_decide as H.
  - simpl in H. subst k'. intros [= ->]. apply list_elem_of_here.
  - intros ?. apply list_elem_of_further. auto.
Qed.

Lemma elem_assoc k v l : NoDup l.*1 → (k, v) ∈ l → assoc k l = Some v.
Proof.
  induction l as [|[k' v'] l IH]; simpl.
  - by intros _ ?%not_elem_of_nil.
  - intros [Hk Hnd]%NoDup_cons [Heq|Hin]%elem_of_cons.
    + injection Heq as <- <-. by rewrite decide_True.
    + rewrite decide_False; [auto|]. intros <-. apply Hk.
      apply list_elem_of_fmap. by exists (k', v).
Qed.

Lemma put_miss k v l : k ∉ l.*1 → put k v l = l ++ [(k, v)].
Proof.
  induction l as [|x l IH]; simpl; [done|]. rewrite not_elem_of_cons. intros [Hne Hl].
  rewrite decide_False by done. by rewrite IH.
Qed.

Lemma put_keys_hit k v l : k ∈ l.*1 → (put k v l).*1 = l.*1.
Proof.
  induction l as [|x l IH]; simpl.
  - by intros ?%not_elem_of_nil.
  - intros Hin. case_decide as H; [done|]. simpl. f_equal. apply IH.
    apply elem_of_cons in Hin as [Hin|Hin]; [by destruct H|done].
Qed.

Lemma put_length_hit k v l : k ∈ l.*1 → length (put k v l) = length l.
Proof.
  intros H. rewrite <- (length_fmap fst (put k v l)), put_keys_hit by done.
  by rewrite length_fmap.
Qed.

Lemma assoc_put k v l : assoc k (put k v l) = Some v.
Proof.
  induction l as [|x l IH]; simpl.
  - by rewrite decide_True.
  - case_decide as H; simpl; [by rewrite decide_True|]. by rewrite decide_False.
Qed.

Lemma assoc_put_ne k k' v l : k' ≠ k → assoc k' (put k v l) = assoc k' l.
Proof.
  intros Hne. induction l as [|x l IH]; simpl.
  - by rewrite decide_False.
  - case_decide as H; simpl.
    + rewrite !decide_False; [done|congruence..].
    + case_decide; [done|apply IH].
Qed.

Lemma remove_keys_subseteq k l x : x ∈ (remove k l).*1 → x ∈ l.*1.
Proof.
  induction l as [|y l IH]; simpl; [done|]. case_decide.
  - apply list_elem_of_further.
  - simpl. rewrite !elem_of_cons. intros [?|?]; auto.
Qed.

Lemma remove_NoDup k l : NoDup l.*1 → NoDup (remove k l).*1.
Proof.
  induction l as [|y l IH]; simpl; [done|]. intros [Hy Hnd]%NoDup_cons. case_decide; [done|].
  simpl. apply NoDup_cons. split; [|auto]. intros ?%remove_keys_subseteq. done.
Qed.

Lemma assoc_remove k l : NoDup l.*1 → assoc k (remove k l) = None.
Proof.
  induction l as [|y l IH]; simpl; [done|]. intros [Hy Hnd]%NoDup_cons. case_decide as H.
  - apply assoc_None. by rewrite <- H.
  - simpl. rewrite decide_False by done. auto.
Qed.

Lemma assoc_remove_ne k k' l : k' ≠ k → assoc k' (remove k l) = assoc k' l.
Proof.
  intros Hne. induction l as [|y l IH]; simpl; [done|]. case_decide as H.
  - rewrite decide_False; [done|congruence].
  - simpl. case_decide; [done|apply IH].
Qed.

Lemma remove_length k l : k ∈ l.*1 → S (length (remove k l)) = length l.
Proof.
  induction l as [|y l IH]; simpl.
  - by intros ?%not_elem_of_nil.
  - intros Hin. case_decide as H; [done|]. simpl. f_equal. apply IH.
    apply elem_of_cons in Hin as [Hin|Hin]; [by destruct H|done].
Qed.

End Model.

Lemma int64_add_l a b : int64 (int64 a + b) = int64 (a + b).
Proof.
  unfold int64. f_equal.
  replace ((a + 2 ^ 63) mod 2 ^ 64 - 2 ^ 63 + b + 2 ^ 63) with ((a + 2 ^ 63) mod 2 ^ 64 + b) by lia.
  rewrite Zplus_mod_idemp_l. f_equal. lia.
Qed.

Lemma int64_small a : - 2 ^ 63 ≤ a < 2 ^ 63 → int64 a = a.
Proof. intros H. unfold int64. rewrite Z.mod_small; lia. Qed.

Section Rep.
Context {V : Type}.
Implicit Types (s : memory V) (c p q : loc) (kv : keyValuePair V) (k : string) (v : V).
Implicit Types (L : list (loc * keyValuePair V)) (sh : shards V).
Implicit Types (l : list (string * V)) (m : list (list (string * V))).

Lemma contents_keys L : (contents L).*1 = keys L.
Proof. unfold contents, keys. by rewrite <- list_fmap_compose. Qed.

Lemma assoc_contents k L : assoc k (contents L) = (λ e, value e.2) <$> find_key k L.
Proof.
  induction L as [|e L IH]; simpl; [done|]. case_decide; [done|apply IH].
Qed.

Lemma Load_answer_assoc k L : Load_answer k L = found (assoc k (contents L)).
Proof. unfold Load_answer. rewrite assoc_contents. by destruct (find_key k L). Qed.

Lemma view_lookup sh i l :
  view sh !! i = Some l ↔ ∃ c L, sh !! i = Some (c, L) ∧ l = contents L.
Proof.
  unfold view. rewrite list_lookup_fmap. destruct (sh !! i) as [[c L]|]; simpl.
  - split; [intros [= <-]; eauto|]. by intros (? & ? & [= <- <-] & ->).
  - split; [done|]. by intros (? & ? & ? & _).
Qed.

Lemma view_insert sh i c L : view (<[i := (c, L)]> sh) = <[i := contents L]> (view sh).
Proof. unfold view. by rewrite list_fmap_insert. Qed.

Lemma view_length sh : length (view sh) = length sh.
Proof. unfold view. by rewrite length_fmap. Qed.

Lemma heap_inv_length s sh : heap_inv s sh → length (pairs s) = length sh.
Proof. intros H. by rewrite (inv_pairs _ _ H), length_fmap. Qed.

Lemma rep_pairs_length rev s m : rep rev s m → length (pairs s) = length m.
Proof.
  intros [(sh & H & ->) _ _ _]. by rewrite view_length, (heap_inv_length _ _ H).
Qed.

Lemma heap_inv_pairs_lookup s sh i c L :
  heap_inv s sh → sh !! i = Some (c, L) → pairs s !! i = Some c.
Proof. intros H Hi. by rewrite (inv_pairs _ _ H), list_lookup_fmap, Hi. Qed.

Lemma cells_snoc c L e : cells c (L ++ [e]) = cells c L ++ [nextPair e.2].
Proof. unfold cells, nexts. by rewrite fmap_app. Qed.

Lemma heap_inv_link s sh i c L k v :
  heap_inv s sh → sh !! i = Some (c, L) →
  heap_inv (link (last_cell c L) (length (kvs s)) (alloc k v s))
    (<[i := (c, L ++ [(length (kvs s), entry k v (length (values s)))])]> sh).
Proof.
  intros H Hi.
  assert (length (values s) ∉ shape_cells sh) as Hfc.
  { intros ?%(heap_inv_cells_lt s); [lia|done]. }
  assert (length (kvs s) ∉ shape_nodes sh) as Hfn.
  { intros ?%(heap_inv_nodes_lt s); [lia|done]. }
  pose proof (heap_inv_alloc k v _ _ H) as H1.
  pose proof (inv_chain _ _ H1 _ _ _ Hi) as Hc.
  assert (NoDup (cells c L)) as Hndc.
  { eapply (NoDup_concat_lookup _ i); [apply (inv_cells _ _ H)|].
    by rewrite list_lookup_fmap, Hi. }
  assert (NoDup (nodes L)) as Hndn.
  { eapply (NoDup_concat_lookup _ i); [apply (inv_nodes _ _ H)|].
    by rewrite list_lookup_fmap, Hi. }
  assert (length (values s) ∉ cells c L) as Hfc'.
  { intros ?. apply Hfc. by eapply elem_of_shape_cells. }
  assert (length (kvs s) ∉ nodes L) as Hfn'.
  { intros ?. apply Hfn. by eapply elem_of_shape_nodes. }
  eapply (heap_inv_update (alloc k v s)); try done.
  - simpl. symmetry. apply list_insert_id. by eapply heap_inv_pairs_lookup.
  - apply chain_link; try done.
    + apply alloc_new_entry.
    + apply alloc_new_value.
  - intros x Hx Hx'. simpl. rewrite list_lookup_insert_ne; [done|].
    intros <-. apply Hx', last_cell_in.
  - rewrite cells_snoc. apply NoDup_app. split_and!; [done| |apply NoDup_singleton].
    intros x Hx ->%list_elem_of_singleton. done.
  - intros x. rewrite cells_snoc, elem_of_app, list_elem_of_singleton. simpl.
    intros [? | ->]; auto.
  - unfold nodes. rewrite fmap_app. apply NoDup_app. split_and!; [done| |apply NoDup_singleton].
    intros x Hx ->%list_elem_of_singleton. done.
  - intros x. unfold nodes. rewrite fmap_app, elem_of_app. simpl.
    rewrite list_elem_of_singleton. intros [? | ->]; auto.
Qed.

Lemma chain_elem s c L e : chain s c L → e ∈ L → kvs s !! e.1 = Some e.2.
Proof.
  revert c. induction L as [|e' L IH]; intros c; simpl.
  - by intros _ ?%not_elem_of_nil.
  - intros (_ & Hk & Hn) [->|Hin]%elem_of_cons; eauto.
Qed.

Lemma heap_inv_assign s sh i c L e v :
  heap_inv s sh → sh !! i = Some (c, L) → e ∈ L →
  heap_inv (assign e.1 e.2 v s) (<[i := (c, upd e.1 v <$> L)]> sh).
Proof.
  intros H Hi He.
  pose proof (inv_chain _ _ H _ _ _ Hi) as Hc.
  eapply (heap_inv_update s); try done.
  - simpl. symmetry. apply list_insert_id. by eapply heap_inv_pairs_lookup.
  - apply chain_assign; [done|]. by eapply chain_elem.
  - intros x Hx Hx'. simpl. rewrite list_lookup_insert_ne; [done|].
    intros <-. apply Hx'. unfold nodes. apply list_elem_of_fmap. by exists e.
  - unfold cells. rewrite nexts_upd.
    eapply (NoDup_concat_lookup _ i); [apply (inv_cells _ _ H)|].
    by rewrite list_lookup_fmap, Hi.
  - unfold cells. rewrite nexts_upd. auto.
  - rewrite nodes_upd.
    eapply (NoDup_concat_lookup _ i); [apply (inv_nodes _ _ H)|].
    by rewrite list_lookup_fmap, Hi.
  - rewrite nodes_upd. auto.
Qed.

Lemma contents_snoc L q k v c : contents (L ++ [(q, entry k v c)]) = contents L ++ [(k, v)].
Proof. unfold contents. by rewrite fmap_app. Qed.

Lemma upd_id p v L : p ∉ nodes L → upd p v <$> L = L.
Proof.
  induction L as [|e L IH]; [done|]. unfold nodes. rewrite fmap_cons, not_elem_of_cons.
  intros [Hne Hin]. rewrite fmap_cons, IH by done. unfold upd. by rewrite decide_False.
Qed.

Lemma contents_upd k v L e :
  NoDup (nodes L) → find_key k L = Some e →
  contents (upd e.1 v <$> L) = put k v (contents L).
Proof.
  induction L as [|e' L IH]; [done|]. unfold nodes. rewrite fmap_cons.
  intros [Hn Hnd]%NoDup_cons. simpl. case_decide as Hk.
  - intros [= ->]. rewrite upd_id by done. unfold upd.
    destruct (decide (e.1 = e.1)); [done|congruence].
  - intros Hf. pose proof (find_key_Some _ _ _ Hf) as [_ Hin].
    rewrite <- (IH Hnd Hf). unfold upd at 1 2.
    rewrite decide_False; [done|].
    intros Heq. apply Hn. rewrite Heq. apply list_elem_of_fmap. by exists e.
Qed.

(** The map after a key was put into shard [i]. *)
Lemma rep_put rev s s' m i l k v :
  rep rev s m → m !! i = Some l →
  shard rev (Z.of_nat (length m)) k = Some (Z.of_nat i) →
  (∃ sh', heap_inv s' sh' ∧ <[i := put k v l]> m = view sh') →
  Map_length s' = (if decide (k ∈ l.*1) then Map_length s else int64 (Map_length s + 1)) →
  rep rev s' (<[i := put k v l]> m).
Proof.
  intros [_ Hkeys Hidx Hlen] Hi Hk Hheap Hlen'.
  assert (i < length m)%nat as Hlt by (by eapply lookup_lt_Some).
  assert (∀ x, x ∈ (put k v l).*1 → x = k ∨ x ∈ l.*1) as Hsub.
  { intros x. destruct (decide (k ∈ l.*1)) as [Hin|Hin].
    - rewrite put_keys_hit by done. auto.
    - rewrite put_miss, fmap_app, elem_of_app by done. simpl.
      rewrite list_elem_of_singleton. tauto. }
  split; [done|..].
  - intros j l' Hj. destruct (decide (i = j)) as [->|Hij].
    + rewrite list_lookup_insert_eq in Hj by done. injection Hj as <-.
      destruct (decide (k ∈ l.*1)) as [Hin|Hin].
      * rewrite put_keys_hit by done. eauto.
      * rewrite put_miss, fmap_app by done. apply NoDup_app. split_and!; [eauto| |apply NoDup_singleton].
        intros x Hx ->%list_elem_of_singleton. done.
    + rewrite list_lookup_insert_ne in Hj by done. eauto.
  - intros j l' k' Hj Hk'. rewrite length_insert. destruct (decide (i = j)) as [->|Hij].
    + rewrite list_lookup_insert_eq in Hj by done. injection Hj as <-.
      apply Hsub in Hk' as [->|Hk']; eauto.
    + rewrite list_lookup_insert_ne in Hj by done. eauto.
  - rewrite Hlen'. pose proof (length_concat_insert m i l (put k v l) Hi) as Hc.
    case_decide as Hin.
    + rewrite put_length_hit in Hc by done. rewrite Hlen. do 2 f_equal. lia.
    + assert (length (put k v l) = S (length l)) as Hp.
      { rewrite put_miss, length_app by done. simpl. lia. }
      rewrite Hlen, int64_add_l. f_equal. lia.
Qed.

Lemma rep_alloc rev s m k v : rep rev s m → rep rev (alloc k v s) m.
Proof.
  intros [(sh & H & ->) Hkeys Hidx Hlen]. split; try done.
  exists sh. split; [|done]. by apply heap_inv_alloc.
Qed.

End Rep.

(** ** What the inserting operations do to the map *)

Section Operations.
Context {V : Type}.
Implicit Types (s : memory V) (c p q : loc) (kv : keyValuePair V) (k : string) (v : V).
Implicit Types (L : list (loc * keyValuePair V)) (sh : shards V).
Implicit Types (l : list (string * V)) (m : list (list (string * V))).

Lemma index_ok rev s sh k (i : nat) :
  heap_inv s sh → shard rev (Z.of_nat (length sh)) k = Some (Z.of_nat i) →
  index rev k s = Ok (Z.of_nat i, s).
Proof. intros H Hk. by rewrite index_spec, (heap_inv_length _ _ H), Hk. Qed.

Lemma pairs_at_ok s sh (i : nat) c L :
  heap_inv s sh → sh !! i = Some (c, L) → pairs_at (Z.of_nat i) s = Ok (c, s).
Proof.
  intros H Hi. unfold pairs_at. rewrite decide_True by lia.
  by rewrite Nat2Z.id, (heap_inv_pairs_lookup _ _ _ _ _ H Hi).
Qed.

Lemma heap_inv_fuel s sh i c L : heap_inv s sh → sh !! i = Some (c, L) → (length L < fuel s)%nat.
Proof.
  intros H Hi. eapply chain_length; [by eapply inv_chain|].
  eapply (NoDup_concat_lookup _ i); [apply (inv_nodes _ _ H)|].
  by rewrite list_lookup_fmap, Hi.
Qed.

Lemma route rev m k :
  (min_shards rev ≤ length m)%nat →
  ∃ i l, shard rev (Z.of_nat (length m)) k = Some (Z.of_nat i) ∧ m !! i = Some l.
Proof.
  intros Hn. destruct (shard_in_range rev (Z.of_nat (length m)) k) as (z & Hz & Hr); [lia|].
  assert (Z.to_nat z < length m)%nat as Hlt by lia.
  apply lookup_lt_is_Some in Hlt as [l Hl].
  exists (Z.to_nat z), l. by rewrite Z2Nat.id by lia.
Qed.

Lemma Load_rep rev s m k i l :
  rep rev s m → shard rev (Z.of_nat (length m)) k = Some (Z.of_nat i) → m !! i = Some l →
  Load rev k s = Ok (found (assoc k l), s).
Proof.
  intros [(sh & H & ->) _ _ _] Hk (c & L & Hi & ->)%view_lookup. rewrite view_length in Hk.
  unfold Load, bind. rewrite (index_ok _ _ _ _ _ H Hk), (pairs_at_ok _ _ _ _ _ H Hi).
  rewrite (Load_loop_spec s c L); [by rewrite Load_answer_assoc|by eapply inv_chain|].
  by eapply heap_inv_fuel.
Qed.

(** the map after the entry of [k] in shard [i] got the value [v] *)
Lemma rep_hit rev s m sh i c L k v e :
  rep rev s m → heap_inv s sh → m = view sh →
  shard rev (Z.of_nat (length m)) k = Some (Z.of_nat i) →
  sh !! i = Some (c, L) → find_key k L = Some e →
  rep rev (assign e.1 e.2 v s) (<[i := put k v (contents L)]> m).
Proof.
  intros Hrep H -> Hk Hi He. pose proof (find_key_Some _ _ _ He) as [Hke Hin].
  eapply rep_put; try done.
  - apply view_lookup. eauto.
  - exists (<[i := (c, upd e.1 v <$> L)]> sh). split; [by apply heap_inv_assign|].
    rewrite view_insert. f_equal. symmetry. apply contents_upd; [|done].
    eapply (NoDup_concat_lookup _ i); [apply (inv_nodes _ _ H)|].
    by rewrite list_lookup_fmap, Hi.
  - rewrite decide_True; [done|]. rewrite contents_keys. subst k.
    unfold keys. apply list_elem_of_fmap. by exists e.
Qed.

(** the map after a new entry for [k] was linked to the chain of shard [i] *)
Lemma rep_miss rev s m sh i c L k v :
  rep rev s m → heap_inv s sh → m = view sh →
  shard rev (Z.of_nat (length m)) k = Some (Z.of_nat i) →
  sh !! i = Some (c, L) → find_key k L = None →
  rep rev (link (last_cell c L) (length (kvs s)) (alloc k v s))
    (<[i := put k v (contents L)]> m).
Proof.
  intros Hrep H -> Hk Hi He. apply find_key_None in He.
  eapply (rep_put rev s); try done.
  - apply view_lookup. eauto.
  - exists (<[i := (c, L ++ [(length (kvs s), entry k v (length (values s)))])]> sh).
    split; [by apply heap_inv_link|].
    rewrite view_insert, contents_snoc, put_miss; [done|]. by rewrite contents_keys.
  - rewrite decide_False; [done|]. by rewrite contents_keys.
Qed.

Lemma Store_rep rev s m k v i l :
  rep rev s m → shard rev (Z.of_nat (length m)) k = Some (Z.of_nat i) → m !! i = Some l →
  ∃ s', Store rev k v s = Ok (tt, s') ∧ rep rev s' (<[i := put k v l]> m).
Proof.
  intros Hrep Hk Hl. pose proof Hrep as [(sh & H & Hm) _ _ _].
  pose proof Hl as Hl'. rewrite Hm in Hl'. apply view_lookup in Hl' as (c & L & Hi & ->).
  pose proof (heap_inv_alloc k v _ _ H) as H1.
  assert (shard rev (Z.of_nat (length sh)) k = Some (Z.of_nat i)) as Hk'.
  { by rewrite <- view_length, <- Hm. }
  unfold Store, bind. rewrite new_pair_spec.
  rewrite (index_ok _ _ _ _ _ H1 Hk'), (pairs_at_ok _ _ _ _ _ H1 Hi).
  rewrite (Store_loop_spec _ c L); [|by eapply inv_chain|by eapply heap_inv_fuel].
  destruct (find_key k L) as [e|] eqn:He; eexists; (split; [done|]).
  - eapply rep_hit; try done. by apply rep_alloc.
  - by eapply rep_miss.
Qed.

Lemma LoadOrStore_rep rev s m k v i l :
  rep rev s m → shard rev (Z.of_nat (length m)) k = Some (Z.of_nat i) → m !! i = Some l →
  match assoc k l with
  | Some v' => LoadOrStore rev k v s = Ok ((v', false), alloc k v s)
  | None =>
      ∃ s', LoadOrStore rev k v s = Ok ((v, true), s') ∧ rep rev s' (<[i := put k v l]> m)
  end.
Proof.
  intros Hrep Hk Hl. pose proof Hrep as [(sh & H & Hm) _ _ _].
  pose proof Hl as Hl'. rewrite Hm in Hl'. apply view_lookup in Hl' as (c & L & Hi & ->).
  pose proof (heap_inv_alloc k v _ _ H) as H1.
  assert (shard rev (Z.of_nat (length sh)) k = Some (Z.of_nat i)) as Hk'.
  { by rewrite <- view_length, <- Hm. }
  unfold LoadOrStore, bind. rewrite new_pair_spec.
  rewrite (index_ok _ _ _ _ _ H1 Hk'), (pairs_at_ok _ _ _ _ _ H1 Hi).
  rewrite (LoadOrStore_loop_spec _ c L); [|by eapply inv_chain|by eapply heap_inv_fuel].
  rewrite assoc_contents. destruct (find_key k L) as [e|] eqn:He; simpl; [done|].
  eexists. split; [done|]. by eapply rep_miss.
Qed.

Lemma LoadAndStore_rep rev s m k v i l :
  rev ≠ map_go →
  rep rev s m → shard rev (Z.of_nat (length m)) k = Some (Z.of_nat i) → m !! i = Some l →
  ∃ s', LoadAndStore k v s = Ok (assoc k l, s') ∧ rep rev s' (<[i := put k v l]> m).
Proof.
  intros Hrev Hrep Hk Hl. pose proof Hrep as [(sh & H & Hm) _ _ _].
  pose proof Hl as Hl'. rewrite Hm in Hl'. apply view_lookup in Hl' as (c & L & Hi & ->).
  pose proof (heap_inv_alloc k v _ _ H) as H1.
  assert (shard part_000 (Z.of_nat (length sh)) k = Some (Z.of_nat i)) as Hk'.
  { rewrite <- view_length, <- Hm. by destruct rev. }
  unfold LoadAndStore, bind. rewrite new_pair_spec.
  rewrite (index_ok _ _ _ _ _ H1 Hk'), (pairs_at_ok _ _ _ _ _ H1 Hi).
  rewrite (LoadAndStore_loop_spec _ c L); [|by eapply inv_chain|by eapply heap_inv_fuel].
  rewrite assoc_contents.
  destruct (find_key k L) as [e|] eqn:He; eexists; (split; [done|]).
  - eapply rep_hit; try done. by apply rep_alloc.
  - by eapply rep_miss.
Qed.

Lemma StoreNotExists_rep rev s m k v i l :
  rev ≠ map_go →
  rep rev s m → shard rev (Z.of_nat (length m)) k = Some (Z.of_nat i) → m !! i = Some l →
  match assoc k l with
  | Some v' => StoreNotExists k v s = Ok (false, alloc k v s)
  | None =>
      ∃ s', StoreNotExists k v s = Ok (true, s') ∧ rep rev s' (<[i := put k v l]> m)
  end.
Proof.
  intros Hrev Hrep Hk Hl. pose proof Hrep as [(sh & H & Hm) _ _ _].
  pose proof Hl as Hl'. rewrite Hm in Hl'. apply view_lookup in Hl' as (c & L & Hi & ->).
  pose proof (heap_inv_alloc k v _ _ H) as H1.
  assert (shard part_001 (Z.of_nat (length sh)) k = Some (Z.of_nat i)) as Hk'.
  { rewrite <- view_length, <- Hm. by destruct rev. }
  unfold StoreNotExists, bind. rewrite new_pair_spec.
  rewrite (index_ok _ _ _ _ _ H1 Hk'), (pairs_at_ok _ _ _ _ _ H1 Hi).
  rewrite (StoreNotExists_loop_spec _ c L); [|by eapply inv_chain|by eapply heap_inv_fuel].
  rewrite assoc_contents. destruct (find_key k L) as [e|] eqn:He; simpl; [done|].
  eexists. split; [done|]. by eapply rep_miss.
Qed.

End Operations.

(** ** Delete *)

Section Remove.
Context {V : Type}.
Implicit Types (s : memory V) (c p q : loc) (kv : keyValuePair V) (k : string) (v : V).
Implicit Types (L : list (loc * keyValuePair V)) (sh : shards V).
Implicit Types (l : list (string * V)) (m : list (list (string * V))).

Lemma find_pred_None k pe L : find_pred k pe L = None ↔ find_key k L = None.
Proof.
  revert pe. induction L as [|e L IH]; intros pe; simpl; [done|]. case_decide; [done|apply IH].
Qed.

Lemma find_pred_elem k pe L pr e :
  find_pred k pe L = Some (pr, e) → (pr = pe ∨ pr ∈ L) ∧ e ∈ L ∧ key e.2 = k.
Proof.
  revert pe. induction L as [|e' L IH]; intros pe; simpl; [done|]. case_decide.
  - intros [= <- <-]. split_and!; [by left| |done]. apply list_elem_of_here.
  - intros (Hpr & He & Hk)%IH. split_and!; [|by apply list_elem_of_further|done].
    right. destruct Hpr as [->|?]; [apply list_elem_of_here|by apply list_elem_of_further].
Qed.

(** [map.go]: behind the head every hit ends in the panic of
    [CompareAndSwap], whose arguments are pointers to [atomic.Value]s while
    [pre] holds a pointer to a [keyValuePair]. *)
Lemma Delete_loop_map_go_spec s pre p0 c L k n :
  values s !! pre = Some (ptr_keyValuePair p0) →
  chain s c L → (length L < n)%nat →
  Delete_loop_map_go n k pre c s =
    match find_key k L with
    | None => Ok (false, s)
    | Some _ => Panic CasInconsistentType
    end.
Proof.
  revert pre p0 c n. induction L as [|e L IH]; intros pre p0 c [|n] Hpre Hc Hn; simpl in *; try lia.
  - unfold bind, Value_Load. by rewrite Hc.
  - destruct Hc as (Hc & Hp & Hnx). unfold bind, Value_Load, deref. rewrite Hc. simpl.
    rewrite Hp. case_decide.
    + unfold Value_CompareAndSwap. simpl. by rewrite Hpre.
    + eapply IH; [done..|lia].
Qed.

Lemma Delete_loop_unsafe_spec s pe L k n :
  kvs s !! pe.1 = Some pe.2 → chain s (nextPair pe.2) L → (length L < n)%nat →
  Delete_loop_unsafe n k pe.1 s =
    match find_pred k pe L with
    | None => Panic NilDereference
    | Some (pr, e) => Ok (true, unlink pr.1 pr.2 (nextPair e.2) s)
    end.
Proof.
  revert pe n. induction L as [|e L IH]; intros pe [|n] Hpe Hc Hn; simpl in *; try lia.
  - unfold bind, deref, Value_Load. rewrite Hpe, Hc. done.
  - destruct Hc as (Hc & Hp & Hnx). unfold bind, deref, Value_Load. rewrite Hpe, Hc. simpl.
    rewrite Hp. simpl. case_decide.
    + unfold CompareAndSwapPointer_nextPair. rewrite Hpe. by rewrite decide_True.
    + rewrite Hc. simpl. apply IH; [done..|lia].
Qed.

Lemma chain_unlink s c pe L k pr e :
  chain s c (pe :: L) → NoDup (nodes (pe :: L)) →
  find_pred k pe L = Some (pr, e) →
  chain (unlink pr.1 pr.2 (nextPair e.2) s) c (unlink_chain k pe L).
Proof.
  revert c pe. induction L as [|e' L IH]; intros c pe Hc Hnd; [done|].
  destruct Hc as (Hc & Hp & Hc' & Hp' & Hnx).
  unfold nodes in Hnd. rewrite !fmap_cons in Hnd.
  apply NoDup_cons in Hnd as [Hpe Hnd]. simpl. case_decide as Hk.
  - intros [= <- <-]. simpl. split_and!; [done| |].
    + apply list_lookup_insert_eq. by eapply lookup_lt_Some.
    + eapply chain_agree; [done|done|]. intros x Hx. simpl.
      rewrite list_lookup_insert_ne; [done|]. intros <-. apply Hpe. by apply list_elem_of_further.
  - intros Hf. pose proof (find_pred_elem _ _ _ _ _ Hf) as (Hpr & _ & _).
    assert (pr.1 ≠ pe.1) as Hne.
    { intros Heq. apply Hpe. rewrite <- Heq.
      destruct Hpr as [->|Hin]; [apply list_elem_of_here|].
      apply list_elem_of_further. apply list_elem_of_fmap. by exists pr. }
    split_and!; [done| |].
    + simpl. by rewrite list_lookup_insert_ne.
    + apply IH; [|done|done]. simpl. done.
Qed.

Lemma unlink_chain_contents k pe L :
  key pe.2 ≠ k → contents (unlink_chain k pe L) = remove k (contents (pe :: L)).
Proof.
  revert pe. induction L as [|e L IH]; intros pe Hne; simpl.
  - by rewrite decide_False.
  - rewrite (decide_False (P := key pe.2 = k)) by done.
    destruct (decide (key e.2 = k)) as [Hk|Hk]; simpl; [done|].
    rewrite IH by done. simpl. by rewrite (decide_False (P := key e.2 = k)).
Qed.

Lemma unlink_chain_nodes k pe L : nodes (unlink_chain k pe L) `sublist_of` nodes (pe :: L).
Proof.
  revert pe. induction L as [|e L IH]; intros pe; simpl; [done|]. case_decide; simpl.
  - apply sublist_skip. apply sublist_cons. done.
  - apply sublist_skip. apply IH.
Qed.

Lemma unlink_chain_nexts k pe L : nexts (unlink_chain k pe L) `sublist_of` nexts (pe :: L).
Proof.
  revert pe. induction L as [|e L IH]; intros pe; simpl; [done|]. case_decide; simpl.
  - apply sublist_cons. done.
  - apply sublist_skip. apply IH.
Qed.

End Remove.

Section Delete.
Context {V : Type}.
Implicit Types (s : memory V) (c p q : loc) (kv : keyValuePair V) (k : string) (v : V).
Implicit Types (L : list (loc * keyValuePair V)) (sh : shards V).
Implicit Types (l : list (string * V)) (m : list (list (string * V))).

(** Replacing the chain of a slot by one made of some of its objects. *)
Lemma heap_inv_shrink s s' sh i c L c' L' :
  heap_inv s sh → sh !! i = Some (c, L) →
  pairs s' = <[i := c']> (pairs s) →
  chain s' c' L' →
  (∀ x, x ∉ cells c L → values s' !! x = values s !! x) →
  (∀ x, x ∉ nodes L → kvs s' !! x = kvs s !! x) →
  cells c' L' `sublist_of` cells c L →
  nodes L' `sublist_of` nodes L →
  heap_inv s' (<[i := (c', L')]> sh).
Proof.
  intros H Hi Hp Hc Hfv Hfk Hsc Hsn.
  assert (NoDup (cells c L)) as Hndc.
  { eapply (NoDup_concat_lookup _ i); [apply (inv_cells _ _ H)|].
    by rewrite list_lookup_fmap, Hi. }
  assert (NoDup (nodes L)) as Hndn.
  { eapply (NoDup_concat_lookup _ i); [apply (inv_nodes _ _ H)|].
    by rewrite list_lookup_fmap, Hi. }
  apply (heap_inv_update s s' sh i c L c' L'); try done.
  - intros x _ Hx. by apply Hfv.
  - intros x _ Hx. by apply Hfk.
  - by apply (sublist_NoDup _ (cells c L)).
  - intros x Hx. left. by apply (sublist_subseteq _ _ Hsc).
  - by apply (sublist_NoDup _ (nodes L)).
  - intros x Hx. left. by apply (sublist_subseteq _ _ Hsn).
Qed.

Lemma heap_inv_swap_head s sh i c e1 e2 L :
  heap_inv s sh → sh !! i = Some (c, e1 :: e2 :: L) →
  heap_inv (swap_head c e2.1 s) (<[i := (c, e2 :: L)]> sh).
Proof.
  intros H Hi. pose proof (inv_chain _ _ H _ _ _ Hi) as (Hc & Hp & Hc2 & Hp2 & Hnx).
  assert (NoDup (cells c (e1 :: e2 :: L))) as Hndc.
  { eapply (NoDup_concat_lookup _ i); [apply (inv_cells _ _ H)|].
    by rewrite list_lookup_fmap, Hi. }
  eapply (heap_inv_shrink s); try done.
  - simpl. symmetry. apply list_insert_id. by eapply heap_inv_pairs_lookup.
  - simpl. split_and!; [|done|].
    + apply list_lookup_insert_eq. by eapply lookup_lt_Some.
    + eapply chain_agree; [done| |done]. intros x Hx. simpl.
      rewrite list_lookup_insert_ne; [done|]. intros <-.
      rewrite !cells_cons in Hndc. apply NoDup_cons in Hndc as [Hndc _].
      apply Hndc. by apply list_elem_of_further.
  - intros x Hx. simpl. rewrite list_lookup_insert_ne; [done|]. intros <-.
    apply Hx. apply list_elem_of_here.
  - unfold cells. simpl. apply sublist_skip, sublist_cons. done.
  - unfold nodes. simpl. apply sublist_cons. done.
Qed.

Lemma heap_inv_swing s sh i c e L :
  heap_inv s sh → sh !! i = Some (c, e :: L) →
  heap_inv (swing i (nextPair e.2) s) (<[i := (nextPair e.2, L)]> sh).
Proof.
  intros H Hi. pose proof (inv_chain _ _ H _ _ _ Hi) as (Hc & Hp & Hnx).
  eapply (heap_inv_shrink s); try done.
  - by eapply chain_agree.
  - unfold cells. simpl. apply sublist_cons. done.
  - unfold nodes. simpl. apply sublist_cons. done.
Qed.

Lemma heap_inv_unlink s sh i c pe L k pr e :
  heap_inv s sh → sh !! i = Some (c, pe :: L) →
  find_pred k pe L = Some (pr, e) →
  heap_inv (unlink pr.1 pr.2 (nextPair e.2) s) (<[i := (c, unlink_chain k pe L)]> sh).
Proof.
  intros H Hi Hf. pose proof (inv_chain _ _ H _ _ _ Hi) as Hc.
  pose proof (find_pred_elem _ _ _ _ _ Hf) as (Hpr & _ & _).
  assert (NoDup (nodes (pe :: L))) as Hndn.
  { eapply (NoDup_concat_lookup _ i); [apply (inv_nodes _ _ H)|].
    by rewrite list_lookup_fmap, Hi. }
  eapply (heap_inv_shrink s); try done.
  - simpl. symmetry. apply list_insert_id. by eapply heap_inv_pairs_lookup.
  - by apply chain_unlink.
  - intros x Hx. simpl. rewrite list_lookup_insert_ne; [done|]. intros <-. apply Hx.
    unfold nodes. apply list_elem_of_fmap. exists pr. split; [done|].
    destruct Hpr as [->|?]; [apply list_elem_of_here|by apply list_elem_of_further].
  - unfold cells. apply sublist_skip. apply unlink_chain_nexts.
  - apply unlink_chain_nodes.
Qed.

(** The map after the entry of [k] left shard [i]. *)
Lemma rep_remove rev s s' m i l k :
  rep rev s m → m !! i = Some l → k ∈ l.*1 →
  (∃ sh', heap_inv s' sh' ∧ <[i := remove k l]> m = view sh') →
  Map_length s' = int64 (Map_length s + -1) →
  rep rev s' (<[i := remove k l]> m).
Proof.
  intros [_ Hkeys Hidx Hlen] Hi Hk Hheap Hlen'.
  assert (i < length m)%nat as Hlt by (by eapply lookup_lt_Some).
  split; [done|..].
  - intros j l' Hj. destruct (decide (i = j)) as [->|Hij].
    + rewrite list_lookup_insert_eq in Hj by done. injection Hj as <-.
      apply remove_NoDup. eauto.
    + rewrite list_lookup_insert_ne in Hj by done. eauto.
  - intros j l' k' Hj Hk'. rewrite length_insert. destruct (decide (i = j)) as [->|Hij].
    + rewrite list_lookup_insert_eq in Hj by done. injection Hj as <-.
      apply remove_keys_subseteq in Hk'. eauto.
    + rewrite list_lookup_insert_ne in Hj by done. eauto.
  - rewrite Hlen', Hlen, int64_add_l. f_equal.
    pose proof (length_concat_insert m i l (remove k l) Hi) as Hc.
    pose proof (remove_length k l Hk). lia.
Qed.

Lemma assoc_is_Some k l : is_Some (assoc k l) ↔ k ∈ l.*1.
Proof.
  destruct (assoc k l) as [v|] eqn:E.
  - split; [intros _|by eauto]. apply dec_stable. intros Hn. apply assoc_None in Hn. congruence.
  - split; [by intros [? ?]|]. intros Hin. apply assoc_None in E. done.
Qed.

Lemma Delete_map_go_heap s sh k i c L :
  heap_inv s sh → shard map_go (Z.of_nat (length sh)) k = Some (Z.of_nat i) →
  sh !! i = Some (c, L) →
  Delete map_go k s =
    match L with
    | [] => Ok (false, s)
    | e1 :: L' =>
        if decide (key e1.2 = k) then
          match L' with
          | [] => Panic CasNilValue
          | e2 :: _ => Ok (true, swap_head c e2.1 s)
          end
        else
          match find_key k L' with
          | None => Ok (false, s)
          | Some _ => Panic CasInconsistentType
          end
    end.
Proof.
  intros H Hk Hi.
  pose proof (inv_chain _ _ H _ _ _ Hi) as Hc.
  pose proof (heap_inv_fuel _ _ _ _ _ H Hi) as Hfuel.
  unfold Delete, Delete_map_go, bind.
  rewrite (index_ok _ _ _ _ _ H Hk), (pairs_at_ok _ _ _ _ _ H Hi).
  destruct L as [|e1 L]; simpl in Hc.
  { by rewrite (Value_Load_ok _ _ _ Hc). }
  destruct Hc as (Hc & Hp & Hnx). rewrite (Value_Load_ok _ _ _ Hc). simpl.
  rewrite (deref_ok _ _ _ Hp). destruct (decide (key e1.2 = k)) as [Hk1|Hk1];
    rewrite (pairs_at_ok _ _ _ _ _ H Hi).
  - destruct L as [|e2 L]; simpl in Hnx.
    + by rewrite (Value_Load_ok _ _ _ Hnx).
    + destruct Hnx as (Hc2 & Hp2 & Hnx). rewrite (Value_Load_ok _ _ _ Hc2).
      unfold Value_CompareAndSwap. simpl. rewrite Hc. simpl.
      by rewrite decide_True.
  - apply (Delete_loop_map_go_spec s c e1.1 (nextPair e1.2) L k (fuel s)); [done|done|].
    simpl in Hfuel. lia.
Qed.

Lemma Delete_unsafe_heap rev s sh k i c L :
  rev ≠ map_go →
  heap_inv s sh → shard rev (Z.of_nat (length sh)) k = Some (Z.of_nat i) →
  sh !! i = Some (c, L) →
  Delete rev k s =
    match L with
    | [] => Ok (false, s)
    | e1 :: L' =>
        if decide (key e1.2 = k) then Ok (true, swing i (nextPair e1.2) s)
        else
          match find_pred k e1 L' with
          | None => Panic NilDereference
          | Some (pr, e) => Ok (true, unlink pr.1 pr.2 (nextPair e.2) s)
          end
    end.
Proof.
  intros Hrev H Hk Hi.
  pose proof (inv_chain _ _ H _ _ _ Hi) as Hc.
  pose proof (heap_inv_fuel _ _ _ _ _ H Hi) as Hfuel.
  assert (Delete rev k s = Delete_unsafe rev k s) as -> by (by destruct rev).
  unfold Delete_unsafe, bind.
  rewrite (index_ok _ _ _ _ _ H Hk), (pairs_at_ok _ _ _ _ _ H Hi).
  rewrite (pairs_at_ok _ _ _ _ _ H Hi).
  destruct L as [|e1 L]; simpl in Hc.
  { by rewrite (Value_Load_ok _ _ _ Hc). }
  destruct Hc as (Hc & Hp & Hnx). rewrite (Value_Load_ok _ _ _ Hc). simpl.
  rewrite (deref_ok _ _ _ Hp). destruct (decide (key e1.2 = k)) as [Hk1|Hk1].
  - unfold CompareAndSwapPointer_pairs. rewrite decide_True by lia.
    rewrite Nat2Z.id, (heap_inv_pairs_lookup _ _ _ _ _ H Hi). by rewrite decide_True.
  - apply (Delete_loop_unsafe_spec s e1 L k (fuel s)); [done|done|]. simpl in Hfuel. lia.
Qed.

Lemma Delete_map_go_rep s m k i l :
  rep map_go s m → shard map_go (Z.of_nat (length m)) k = Some (Z.of_nat i) → m !! i = Some l →
  match l with
  | [] => Delete map_go k s = Ok (false, s)
  | x :: l' =>
      if decide (x.1 = k) then
        match l' with
        | [] => Delete map_go k s = Panic CasNilValue
        | _ :: _ =>
            ∃ s', Delete map_go k s = Ok (true, s') ∧ rep map_go s' (<[i := remove k l]> m)
        end
      else
        match assoc k l' with
        | None => Delete map_go k s = Ok (false, s)
        | Some _ => Delete map_go k s = Panic CasInconsistentType
        end
  end.
Proof.
  intros Hrep Hk Hl. pose proof Hrep as [(sh & H & Hm) _ _ _].
  pose proof Hl as Hl'. rewrite Hm in Hl'. apply view_lookup in Hl' as (c & L & Hi & ->).
  assert (shard map_go (Z.of_nat (length sh)) k = Some (Z.of_nat i)) as Hk'.
  { by rewrite <- view_length, <- Hm. }
  rewrite (Delete_map_go_heap _ _ _ _ _ _ H Hk' Hi).
  destruct L as [|e1 L]; [done|]. simpl.
  destruct (decide (key e1.2 = k)) as [Hk1|Hk1].
  - destruct L as [|e2 L]; [done|]. simpl. eexists. split; [done|].
    cut (rep map_go (swap_head c e2.1 s)
           (<[i := remove k (contents (e1 :: e2 :: L))]> m)).
    { simpl. by rewrite decide_True. }
    eapply rep_remove; try done.
    + simpl. rewrite Hk1. apply list_elem_of_here.
    + exists (<[i := (c, e2 :: L)]> sh). split; [by apply (heap_inv_swap_head s sh i c e1)|].
      rewrite view_insert, Hm. f_equal. simpl. by rewrite decide_True.
  - rewrite assoc_contents. by destruct (find_key k L).
Qed.

Lemma Delete_unsafe_rep rev s m k i l :
  rev ≠ map_go →
  rep rev s m → shard rev (Z.of_nat (length m)) k = Some (Z.of_nat i) → m !! i = Some l →
  match l with
  | [] => Delete rev k s = Ok (false, s)
  | _ :: _ =>
      match assoc k l with
      | Some _ => ∃ s', Delete rev k s = Ok (true, s') ∧ rep rev s' (<[i := remove k l]> m)
      | None => Delete rev k s = Panic NilDereference
      end
  end.
Proof.
  intros Hrev Hrep Hk Hl. pose proof Hrep as [(sh & H & Hm) _ _ _].
  pose proof Hl as Hl'. rewrite Hm in Hl'. apply view_lookup in Hl' as (c & L & Hi & ->).
  assert (shard rev (Z.of_nat (length sh)) k = Some (Z.of_nat i)) as Hk'.
  { by rewrite <- view_length, <- Hm. }
  rewrite (Delete_unsafe_heap _ _ _ _ _ _ _ Hrev H Hk' Hi).
  destruct L as [|e1 L]; [done|]. rewrite assoc_contents.
  cbn [contents fmap list_fmap find_key].
  destruct (decide (key e1.2 = k)) as [Hk1|Hk1].
  - simpl. eexists. split; [done|].
    cut (rep rev (swing i (nextPair e1.2) s)
           (<[i := remove k (contents (e1 :: L))]> m)).
    { intros Hx. exact Hx. }
    eapply rep_remove; try done.
    + simpl. rewrite Hk1. apply list_elem_of_here.
    + exists (<[i := (nextPair e1.2, L)]> sh). split; [by apply (heap_inv_swing s sh i c)|].
      rewrite view_insert, Hm. f_equal. simpl. by rewrite decide_True.
  - destruct (find_pred k e1 L) as [[pr e]|] eqn:Hf.
    + pose proof (find_pred_elem _ _ _ _ _ Hf) as (_ & Hin & Hke).
      destruct (find_key k L) as [e'|] eqn:Hf'.
      2:{ apply (find_pred_None k e1) in Hf'. congruence. }
      simpl. eexists. split; [done|].
      cut (rep rev (unlink pr.1 pr.2 (nextPair e.2) s)
             (<[i := remove k (contents (e1 :: L))]> m)).
      { intros Hx. exact Hx. }
      eapply rep_remove; try done.
      * rewrite contents_keys. apply list_elem_of_further.
        unfold keys. apply list_elem_of_fmap. by exists e.
      * exists (<[i := (c, unlink_chain k e1 L)]> sh). split; [by eapply heap_inv_unlink|].
        rewrite view_insert, Hm. by rewrite unlink_chain_contents.
    + apply find_pred_None in Hf. by rewrite Hf.
Qed.

End Delete.

(** ** The states a program can reach *)

Section Reachable.
Context {V : Type}.
Implicit Types (s : memory V) (c p q : loc) (kv : keyValuePair V) (k : string) (v : V).
Implicit Types (L : list (loc * keyValuePair V)) (sh : shards V).
Implicit Types (l : list (string * V)) (m : list (list (string * V))).

(** Either the key is routed to a shard, or [index] or [m.pairs[i]] panics. *)
Lemma locate rev s m k :
  length (pairs s) = length m →
  (∃ i l, routed rev m k i l) ∨
  (∀ s1 : memory V, pairs s1 = pairs s →
     (∃ e, index rev k s1 = Panic e) ∨
     (∃ z e, index rev k s1 = Ok (z, s1) ∧ pairs_at z s1 = Panic e)).
Proof.
  intros Hlen. destruct (shard rev (Z.of_nat (length m)) k) as [z|] eqn:Hz.
  - destruct (decide (0 ≤ z)) as [Hz0|Hz0].
    + destruct (m !! Z.to_nat z) as [l|] eqn:Hl.
      * left. exists (Z.to_nat z), l. split; [|done]. by rewrite Z2Nat.id.
      * right. intros s1 Hs1. right. exists z, IndexOutOfRange.
        rewrite index_spec, Hs1, Hlen, Hz. split; [done|].
        unfold pairs_at. rewrite decide_True by done.
        apply lookup_ge_None in Hl. rewrite Hs1.
        rewrite (proj2 (lookup_ge_None _ _)); [done|lia].
    + right. intros s1 Hs1. right. exists z, IndexOutOfRange.
      rewrite index_spec, Hs1, Hlen, Hz. split; [done|].
      unfold pairs_at. by rewrite decide_False.
  - right. intros s1 Hs1. left. exists DivideByZero. by rewrite index_spec, Hs1, Hlen, Hz.
Qed.

Lemma Store_routed rev s m k v r :
  rep rev s m → Store rev k v s = Ok r → ∃ i l, routed rev m k i l.
Proof.
  intros Hrep Hok. destruct (locate rev s m k) as [?|Hun]; [by eapply rep_pairs_length|done|].
  exfalso. destruct (Hun (alloc k v s) eq_refl) as [[e He]|(z & e & He & Hp)];
    unfold Store, bind in Hok; rewrite new_pair_spec, He in Hok; [done|].
  by rewrite Hp in Hok.
Qed.

Lemma LoadOrStore_routed rev s m k v r :
  rep rev s m → LoadOrStore rev k v s = Ok r → ∃ i l, routed rev m k i l.
Proof.
  intros Hrep Hok. destruct (locate rev s m k) as [?|Hun]; [by eapply rep_pairs_length|done|].
  exfalso. destruct (Hun (alloc k v s) eq_refl) as [[e He]|(z & e & He & Hp)];
    unfold LoadOrStore, bind in Hok; rewrite new_pair_spec, He in Hok; [done|].
  by rewrite Hp in Hok.
Qed.

Lemma LoadAndStore_routed rev s m k v r :
  rev ≠ map_go →
  rep rev s m → LoadAndStore k v s = Ok r → ∃ i l, routed rev m k i l.
Proof.
  intros Hrev Hrep Hok.
  destruct (locate rev s m k) as [?|Hun]; [by eapply rep_pairs_length|done|].
  exfalso. assert (index (V:=V) rev k = index part_000 k) as Hidx by (by destruct rev).
  rewrite Hidx in Hun.
  destruct (Hun (alloc k v s) eq_refl) as [[e He]|(z & e & He & Hp)];
    unfold LoadAndStore, bind in Hok; rewrite new_pair_spec, He in Hok; [done|].
  by rewrite Hp in Hok.
Qed.

Lemma StoreNotExists_routed rev s m k v r :
  rev ≠ map_go →
  rep rev s m → StoreNotExists k v s = Ok r → ∃ i l, routed rev m k i l.
Proof.
  intros Hrev Hrep Hok.
  destruct (locate rev s m k) as [?|Hun]; [by eapply rep_pairs_length|done|].
  exfalso. assert (index (V:=V) rev k = index part_001 k) as Hidx by (by destruct rev).
  rewrite Hidx in Hun.
  destruct (Hun (alloc k v s) eq_refl) as [[e He]|(z & e & He & Hp)];
    unfold StoreNotExists, bind in Hok; rewrite new_pair_spec, He in Hok; [done|].
  by rewrite Hp in Hok.
Qed.

Lemma Delete_routed rev s m k r :
  rep rev s m → Delete rev k s = Ok r → ∃ i l, routed rev m k i l.
Proof.
  intros Hrep Hok. destruct (locate rev s m k) as [?|Hun]; [by eapply rep_pairs_length|done|].
  exfalso. destruct (Hun s eq_refl) as [[e He]|(z & e & He & Hp)];
    destruct rev; unfold Delete, Delete_map_go, Delete_unsafe, bind in Hok;
    rewrite He in Hok; try done; by rewrite Hp in Hok.
Qed.

Lemma view_empty n : view (empty_shards n) = replicate n ([] : list (string * V)).
Proof.
  unfold view, empty_shards. rewrite <- list_fmap_compose. generalize 0%nat.
  induction n as [|n IH]; intros j; simpl; [done|]. f_equal. apply IH.
Qed.

Lemma concat_replicate_nil {A} n : concat (replicate n ([] : list A)) = [].
Proof. induction n as [|n IH]; simpl; done. Qed.

Lemma New_rep rev size s :
  New size = Ok s → rep rev s (replicate (Z.to_nat size) []).
Proof.
  intros Hnew. pose proof (New_heap_inv _ _ Hnew) as H.
  assert (Map_length s = 0) as Hlen.
  { destruct (decide (0 ≤ size)) as [Hs|Hs].
    - rewrite New_spec in Hnew by done. by injection Hnew as <-.
    - unfold New in Hnew. by rewrite decide_True in Hnew by lia. }
  split.
  - exists (empty_shards (Z.to_nat size)). split; [done|]. by rewrite view_empty.
  - intros i l [-> _]%lookup_replicate. constructor.
  - intros i l k [-> _]%lookup_replicate Hk. by apply not_elem_of_nil in Hk.
  - by rewrite concat_replicate_nil.
Qed.

(** Every reachable heap holds a map. *)
Lemma reachable_rep rev s : reachable rev s → ∃ m, rep rev s m.
Proof.
  induction 1 as [size s Hnew|s k v s' _ [m Hrep] Hok|s k v r s' _ [m Hrep] Hok
                  |s k v r s' Hrev _ [m Hrep] Hok|s k v r s' Hrev _ [m Hrep] Hok
                  |s k r s' _ [m Hrep] Hok].
  - eexists. by eapply New_rep.
  - destruct (Store_routed _ _ _ _ _ _ Hrep Hok) as (i & l & Hk & Hl).
    destruct (Store_rep _ _ _ k v _ _ Hrep Hk Hl) as (s2 & Heq & Hrep').
    rewrite Heq in Hok. injection Hok as <-. eauto.
  - destruct (LoadOrStore_routed _ _ _ _ _ _ Hrep Hok) as (i & l & Hk & Hl).
    pose proof (LoadOrStore_rep _ _ _ k v _ _ Hrep Hk Hl) as Hspec.
    destruct (assoc k l).
    + rewrite Hspec in Hok. injection Hok as <- <-. exists m. by apply rep_alloc.
    + destruct Hspec as (s2 & Heq & Hrep'). rewrite Heq in Hok. injection Hok as <- <-. eauto.
  - destruct (LoadAndStore_routed _ _ _ _ _ _ Hrev Hrep Hok) as (i & l & Hk & Hl).
    destruct (LoadAndStore_rep _ _ _ k v _ _ Hrev Hrep Hk Hl) as (s2 & Heq & Hrep').
    rewrite Heq in Hok. injection Hok as <- <-. eauto.
  - assert (rev ≠ map_go) as Hrev' by (by subst rev).
    destruct (StoreNotExists_routed _ _ _ _ _ _ Hrev' Hrep Hok) as (i & l & Hk & Hl).
    pose proof (StoreNotExists_rep _ _ _ k v _ _ Hrev' Hrep Hk Hl) as Hspec.
    destruct (assoc k l).
    + rewrite Hspec in Hok. injection Hok as <- <-. exists m. by apply rep_alloc.
    + destruct Hspec as (s2 & Heq & Hrep'). rewrite Heq in Hok. injection Hok as <- <-. eauto.
  - destruct (Delete_routed _ _ _ _ _ Hrep Hok) as (i & l & Hk & Hl).
    destruct (decide (rev = map_go)) as [->|Hrev].
    + pose proof (Delete_map_go_rep _ _ _ _ _ Hrep Hk Hl) as Hspec.
      destruct l as [|x l]; [rewrite Hspec in Hok; injection Hok as <- <-; eauto|].
      destruct (decide (x.1 = k)).
      * destruct l as [|y l]; [by rewrite Hspec in Hok|].
        destruct Hspec as (s2 & Heq & Hrep'). rewrite Heq in Hok. injection Hok as <- <-. eauto.
      * destruct (assoc k l); rewrite Hspec in Hok; [done|]. injection Hok as <- <-. eauto.
    + pose proof (Delete_unsafe_rep _ _ _ _ _ _ Hrev Hrep Hk Hl) as Hspec.
      destruct l as [|x l]; [rewrite Hspec in Hok; injection Hok as <- <-; eauto|].
      destruct (assoc k (x :: l)); [|by rewrite Hspec in Hok].
      destruct Hspec as (s2 & Heq & Hrep'). rewrite Heq in Hok. injection Hok as <- <-. eauto.
Qed.

Lemma reachable_length_pairs rev s : reachable rev s → ∃ m, rep rev s m ∧ length m = length (pairs s).
Proof.
  intros [m Hm]%reachable_rep. exists m. split; [done|]. symmetry. by eapply rep_pairs_length.
Qed.

End Reachable.

(** ** Range *)

Section RangeSpec.
Context {V A : Type} (f : string → V → A → bool * A).
Implicit Types (s : memory V) (c p q : loc) (kv : keyValuePair V) (k : string) (v : V).
Implicit Types (L : list (loc * keyValuePair V)) (sh : shards V).
Implicit Types (l es : list (string * V)) (m : list (list (string * V))) (a : A).

Lemma visit_app es1 es2 a :
  visit f (es1 ++ es2) a =
    if (visit f es1 a).1 then visit f es2 (visit f es1 a).2 else (false, (visit f es1 a).2).
Proof.
  revert a. induction es1 as [|x es1 IH]; intros a; simpl; [done|].
  destruct (f x.1 x.2 a) as [[] a']; [apply IH|done].
Qed.

Lemma Range_chain_spec s e L a n :
  kvs s !! e.1 = Some e.2 → chain s (nextPair e.2) L → (length L < n)%nat →
  Range_chain f n (ptr_keyValuePair e.1) a s = Ok (visit f (contents (e :: L)) a, s).
Proof.
  revert e a n. induction L as [|e' L IH]; intros e a [|n] Hp Hc Hn;
    try (simpl in Hn; lia); cbn [Range_chain as_keyValuePair]; unfold bind at 1, ret at 1;
    unfold bind at 1; rewrite (deref_ok _ _ _ Hp); cbn [contents fmap list_fmap visit fst snd];
    destruct (f (key e.2) (value e.2) a) as [[] a']; try done; unfold bind.
  - simpl in Hc. by rewrite (Value_Load_ok _ _ _ Hc).
  - destruct Hc as (Hc & Hp' & Hnx). rewrite (Value_Load_ok _ _ _ Hc).
    rewrite decide_False by done.
    rewrite (IH e' a' n); [done|done|done|simpl in Hn; lia].
Qed.

Lemma Range_pairs_spec s sh a :
  (∀ c L, (c, L) ∈ sh → chain s c L ∧ (length L < fuel s)%nat) →
  Range_pairs f sh.*1 a s = Ok ((visit f (concat (view sh)) a).2, s).
Proof.
  revert a. induction sh as [|[c L] sh IH]; intros a Hsh; [done|].
  assert (∀ c L, (c, L) ∈ sh → chain s c L ∧ (length L < fuel s)%nat) as Hsh'.
  { intros c' L' Hin. apply Hsh. by apply list_elem_of_further. }
  destruct (Hsh c L) as [Hc Hn]; [apply list_elem_of_here|].
  rewrite fmap_cons. cbn [Range_pairs fst]. unfold view. rewrite fmap_cons. cbn [concat snd].
  fold (view sh). rewrite visit_app. unfold bind.
  destruct L as [|e L]; simpl in Hc.
  - rewrite (Value_Load_ok _ _ _ Hc). simpl. by apply IH.
  - destruct Hc as (Hc & Hp & Hnx). rewrite (Value_Load_ok _ _ _ Hc).
    rewrite decide_False by done.
    rewrite (Range_chain_spec s e L a (fuel s)); [|done|done|simpl in Hn; lia].
    cbn [fst snd]. destruct (visit f (contents (e :: L)) a) as [[] a']; simpl; [|done].
    by apply IH.
Qed.

Lemma Range_heap s sh a :
  heap_inv s sh → Range f a s = Ok ((visit f (concat (view sh)) a).2, s).
Proof.
  intros H. unfold Range. rewrite (inv_pairs _ _ H). apply Range_pairs_spec.
  intros c L (i & Hi)%list_elem_of_lookup. split; [by eapply inv_chain|by eapply heap_inv_fuel].
Qed.

End RangeSpec.

(** * The properties of the specification *)

Section Properties.
Context {V : Type}.
Implicit Types (s : memory V) (c p q : loc) (kv : keyValuePair V) (k : string) (v : V).
Implicit Types (L : list (loc * keyValuePair V)) (sh : shards V).
Implicit Types (l : list (string * V)) (m : list (list (string * V))).

Lemma rep_last_shard_empty rev s m :
  rep rev s m → (1 < length m)%nat → m !! (length m - 1)%nat = Some [].
Proof.
  intros Hrep Hn.
  assert (length m - 1 < length m)%nat as Hlt by lia.
  apply lookup_lt_is_Some in Hlt as [l Hl]. rewrite Hl. f_equal.
  destruct l as [|x l]; [done|]. exfalso.
  pose proof (rep_index _ _ _ Hrep _ _ x.1 Hl) as Hidx.
  rewrite fmap_cons in Hidx. specialize (Hidx (list_elem_of_here _ _)).
  apply shard_not_last in Hidx; lia.
Qed.

(** C1. With more than one shard, [index] reduces the hash modulo the
    number of shards less one: it never answers the last position, and in
    every reachable state the chain of the last slot is empty. *)
Theorem index_never_last_shard rev s :
  reachable rev s → (1 < length (pairs s))%nat →
  (∀ k, ∃ i, index rev k s = Ok (i, s) ∧
             i = hash63 k `mod` (Z.of_nat (length (pairs s)) - 1) ∧
             0 ≤ i < Z.of_nat (length (pairs s)) - 1) ∧
  (∃ c, pairs s !! (length (pairs s) - 1)%nat = Some c ∧ values s !! c = Some nil).
Proof.
  intros [m Hrep]%reachable_rep Hn. split.
  - intros k. pose proof (hash63_nonneg k) as Hh.
    exists (hash63 k `mod` (Z.of_nat (length (pairs s)) - 1)). split; [|split; [done|]].
    + rewrite index_spec. rewrite <- Z.rem_mod_nonneg by lia.
      destruct rev; unfold shard; repeat case_decide; try done; lia.
    + pose proof (Z.mod_pos_bound (hash63 k) (Z.of_nat (length (pairs s)) - 1)). lia.
  - pose proof (rep_pairs_length _ _ _ Hrep) as Hlen. rewrite Hlen in Hn |- *.
    pose proof (rep_last_shard_empty _ _ _ Hrep Hn) as Hlast.
    destruct Hrep as [(sh & H & ->) _ _ _].
    apply view_lookup in Hlast as (c & L & Hi & HL).
    destruct L; [|done]. exists c. split.
    + by eapply heap_inv_pairs_lookup.
    + by apply (inv_chain _ _ H _ _ _ Hi).
Qed.

(** C10. In every reachable state every slot of the shard table heads a
    chain, and no two entries of a chain have the same key. *)
Theorem chain_keys_distinct rev s (i : nat) c :
  reachable rev s → pairs s !! i = Some c →
  ∃ L, chain s c L ∧ NoDup (keys L).
Proof.
  intros [m Hrep]%reachable_rep Hi. pose proof Hrep as [(sh & H & ->) Hkeys _ _].
  rewrite (inv_pairs _ _ H), list_lookup_fmap in Hi.
  destruct (sh !! i) as [[c' L]|] eqn:Hsh; [|done]. simpl in Hi. injection Hi as ->.
  exists L. split; [by eapply inv_chain|].
  rewrite <- contents_keys. apply (Hkeys i). apply view_lookup. eauto.
Qed.

Lemma Stores_rep rev s m k vs v :
  rep rev s m → (min_shards rev ≤ length m)%nat →
  ∃ s' m', Stores rev k (vs ++ [v]) s = Ok (tt, s') ∧ rep rev s' m' ∧
           Load rev k s' = Ok ((Some v, true), s').
Proof.
  revert s m. induction vs as [|v0 vs IH]; intros s m Hrep Hn;
    destruct (route rev m k Hn) as (i & l & Hk & Hl).
  - destruct (Store_rep _ _ _ k v _ _ Hrep Hk Hl) as (s' & Heq & Hrep').
    exists s', (<[i := put k v l]> m). simpl. unfold bind. rewrite Heq. split_and!; [done..|].
    rewrite (Load_rep rev s' _ k i (put k v l) Hrep').
    + by rewrite assoc_put.
    + by rewrite length_insert.
    + apply list_lookup_insert_eq. by eapply lookup_lt_Some.
  - destruct (Store_rep _ _ _ k v0 _ _ Hrep Hk Hl) as (s1 & Heq & Hrep1).
    destruct (IH s1 _ Hrep1) as (s' & m' & Heq' & Hrep' & Hload).
    { by rewrite length_insert. }
    exists s', m'. simpl. unfold bind. rewrite Heq. done.
Qed.

Lemma routed_enough rev m k i l : routed rev m k i l → (min_shards rev ≤ length m)%nat.
Proof.
  intros [Hk Hl]. apply lookup_lt_Some in Hl.
  destruct rev; unfold shard in Hk; repeat case_decide; simpl; try done; lia.
Qed.

Lemma Load_routed rev s m k r :
  rep rev s m → Load rev k s = Ok r → ∃ i l, routed rev m k i l.
Proof.
  intros Hrep Hok. destruct (locate rev s m k) as [?|Hun]; [by eapply rep_pairs_length|done|].
  exfalso. destruct (Hun s eq_refl) as [[e He]|(z & e & He & Hp)];
    unfold Load, bind in Hok; rewrite He in Hok; [done|]. by rewrite Hp in Hok.
Qed.

Lemma Stores_enough rev s m k vs v r :
  rep rev s m → Stores rev k (vs ++ [v]) s = Ok r → (min_shards rev ≤ length m)%nat.
Proof.
  intros Hrep Hok.
  assert (∃ v0 vs', vs ++ [v] = v0 :: vs') as (v0 & vs' & Heq).
  { destruct vs; simpl; eauto. }
  rewrite Heq in Hok. simpl in Hok. unfold bind in Hok.
  destruct (Store rev k v0 s) as [r0| |] eqn:E; [|done..].
  destruct (Store_routed _ _ _ _ _ _ Hrep E) as (i & l & Hr). by eapply routed_enough.
Qed.

(** C5. After any number of [Store]s on one key, the last of them with the
    value [v], [Load] of that key answers [v] and [true]; and the [Store]s do
    return when the map has the shards [index] needs. *)
Theorem Load_after_Stores rev s k vs v :
  reachable rev s →
  ((min_shards rev ≤ length (pairs s))%nat →
   ∃ s', Stores rev k (vs ++ [v]) s = Ok (tt, s')) ∧
  (∀ s', Stores rev k (vs ++ [v]) s = Ok (tt, s') →
         Load rev k s' = Ok ((Some v, true), s')).
Proof.
  intros [m Hrep]%reachable_rep. rewrite (rep_pairs_length _ _ _ Hrep). split.
  - intros Hn. destruct (Stores_rep rev s m k vs v Hrep Hn) as (s' & m' & ? & _ & ?). eauto.
  - intros s' Hok. pose proof (Stores_enough _ _ _ _ _ _ _ Hrep Hok) as Hn.
    destruct (Stores_rep rev s m k vs v Hrep Hn) as (s2 & m' & Heq & _ & Hload).
    rewrite Heq in Hok. by injection Hok as <-.
Qed.

Lemma Load_found rev s m k i l o :
  rep rev s m → routed rev m k i l → Load rev k s = Ok (found o, s) → assoc k l = o.
Proof.
  intros Hrep [Hk Hl] Hload. rewrite (Load_rep _ _ _ _ _ _ Hrep Hk Hl) in Hload.
  injection Hload as Hf. destruct (assoc k l), o; simpl in Hf; congruence.
Qed.

Lemma routed_insert rev m k i l j l' :
  routed rev m k i l → (j < length m)%nat →
  routed rev (<[j := l']> m) k i (if decide (i = j) then l' else l).
Proof.
  intros [Hk Hl] Hj. split; [by rewrite length_insert|]. case_decide as Hij.
  - subst j. by apply list_lookup_insert_eq.
  - by rewrite list_lookup_insert_ne.
Qed.

(** C6. [LoadOrStore] of an absent key inserts it and answers the value
    given and [true]; a second [LoadOrStore] of the key answers the first
    value and [false], and all it does to the heap is to allocate the entry
    it then drops: the shard table, the counter and every object that
    existed are as before, and every [Load] answers as before. *)
Theorem LoadOrStore_absent_then_present rev s k v w :
  reachable rev s → Load rev k s = Ok ((None, false), s) →
  ∃ s1, LoadOrStore rev k v s = Ok ((v, true), s1) ∧
        Load rev k s1 = Ok ((Some v, true), s1) ∧
        ∃ s2, LoadOrStore rev k w s1 = Ok ((v, false), s2) ∧
              Load rev k s2 = Ok ((Some v, true), s2) ∧
              pairs s2 = pairs s1 ∧ Map_length s2 = Map_length s1 ∧
              values s1 `prefix_of` values s2 ∧ kvs s1 `prefix_of` kvs s2 ∧
              ∀ k', ∃ r, Load rev k' s1 = Ok (r, s1) ∧ Load rev k' s2 = Ok (r, s2).
Proof.
  intros [m Hrep]%reachable_rep Habs.
  destruct (Load_routed _ _ _ _ _ Hrep Habs) as (i & l & Hk & Hl).
  pose proof (routed_enough _ _ _ _ _ (conj Hk Hl)) as Hn.
  pose proof (Load_found _ _ _ _ _ _ None Hrep (conj Hk Hl) Habs) as Hnone.
  pose proof (LoadOrStore_rep _ _ _ k v _ _ Hrep Hk Hl) as Hspec. rewrite Hnone in Hspec.
  destruct Hspec as (s1 & Heq1 & Hrep1). exists s1. split; [done|].
  assert (i < length m)%nat as Hi by (by eapply lookup_lt_Some).
  assert (shard rev (Z.of_nat (length (<[i := put k v l]> m))) k = Some (Z.of_nat i)) as Hk1.
  { by rewrite length_insert. }
  assert (<[i := put k v l]> m !! i = Some (put k v l)) as Hl1.
  { by apply list_lookup_insert_eq. }
  split.
  { rewrite (Load_rep _ _ _ _ _ _ Hrep1 Hk1 Hl1). by rewrite assoc_put. }
  pose proof (LoadOrStore_rep _ _ _ k w _ _ Hrep1 Hk1 Hl1) as Hspec. rewrite assoc_put in Hspec.
  exists (alloc k w s1). pose proof (rep_alloc rev s1 _ k w Hrep1) as Hrep2.
  split_and!; [done| |done|done|by eexists|by eexists|].
  - rewrite (Load_rep _ _ _ _ _ _ Hrep2 Hk1 Hl1). by rewrite assoc_put.
  - intros k'. assert (min_shards rev ≤ length (<[i := put k v l]> m))%nat as Hn'.
    { by rewrite length_insert. }
    destruct (route rev _ k' Hn') as (j & l' & Hk' & Hl').
    exists (found (assoc k' l')).
    by rewrite (Load_rep _ _ _ _ _ _ Hrep1 Hk' Hl'), (Load_rep _ _ _ _ _ _ Hrep2 Hk' Hl').
Qed.

Lemma rep_put_length rev s s' m i l k v :
  rep rev s m → rep rev s' (<[i := put k v l]> m) → m !! i = Some l →
  Map_length s' =
    match assoc k l with
    | Some _ => Map_length s
    | None => int64 (Map_length s + 1)
    end.
Proof.
  intros Hrep Hrep' Hl. rewrite (rep_length _ _ _ Hrep'), (rep_length _ _ _ Hrep).
  pose proof (length_concat_insert m i l (put k v l) Hl) as Hc.
  destruct (assoc k l) as [x|] eqn:Ha.
  - assert (k ∈ l.*1) as Hin by (apply assoc_is_Some; eauto).
    rewrite put_length_hit in Hc by done. do 2 f_equal. lia.
  - apply assoc_None in Ha.
    assert (length (put k v l) = S (length l)) as Hp.
    { rewrite put_miss, length_app by done. simpl. lia. }
    rewrite int64_add_l. f_equal. lia.
Qed.

(** C7. [LoadAndStore] (part_000, part_001) swaps: the answer is what
    [Load] answered before the call, the prior value or [nil]; afterwards
    [Load] answers the new value; the counter grows by one when the key was
    absent and stays when it was present; no other key is affected. *)
Theorem LoadAndStore_swaps rev s k v :
  rev ≠ map_go →
  reachable rev s → (1 ≤ length (pairs s))%nat →
  ∃ old s', LoadAndStore k v s = Ok (old, s') ∧
            Load rev k s = Ok (found old, s) ∧
            Load rev k s' = Ok ((Some v, true), s') ∧
            Map_length s' =
              match old with
              | Some _ => Map_length s
              | None => int64 (Map_length s + 1)
              end ∧
            ∀ k', k' ≠ k → ∃ r, Load rev k' s = Ok (r, s) ∧ Load rev k' s' = Ok (r, s').
Proof.
  intros Hrev [m Hrep]%reachable_rep Hn. rewrite (rep_pairs_length _ _ _ Hrep) in Hn.
  assert (min_shards rev ≤ length m)%nat as Hn' by (by destruct rev).
  destruct (route rev m k Hn') as (i & l & Hk & Hl).
  destruct (LoadAndStore_rep _ _ _ k v _ _ Hrev Hrep Hk Hl) as (s' & Heq & Hrep').
  assert (i < length m)%nat as Hi by (by eapply lookup_lt_Some).
  exists (assoc k l), s'. split_and!; [done|by apply (Load_rep _ _ _ _ _ _ Hrep Hk Hl)| | |].
  - rewrite (Load_rep rev s' _ k i (put k v l) Hrep').
    + by rewrite assoc_put.
    + by rewrite length_insert.
    + by apply list_lookup_insert_eq.
  - by eapply rep_put_length.
  - intros k' Hne. destruct (route rev m k' Hn') as (j & l' & Hk' & Hl').
    exists (found (assoc k' l')). split; [by apply (Load_rep _ _ _ _ _ _ Hrep Hk' Hl')|].
    assert (j < length m)%nat as Hj by (by eapply lookup_lt_Some).
    pose proof (routed_insert rev m k' j l' i (put k v l) (conj Hk' Hl') Hi) as [Hk2 Hl2].
    rewrite (Load_rep _ _ _ _ _ _ Hrep' Hk2 Hl2). case_decide as Hij; [|done].
    subst j. assert (l' = l) as -> by congruence. by rewrite assoc_put_ne.
Qed.

Lemma Store_all_rep rev s m kvl :
  rep rev s m → (min_shards rev ≤ length m)%nat →
  NoDup kvl.*1 → (∀ k, k ∈ kvl.*1 → k ∉ (concat m).*1) →
  ∃ s' m', Store_all rev kvl s = Ok (tt, s') ∧ rep rev s' m' ∧
           length (concat m') = (length (concat m) + length kvl)%nat.
Proof.
  revert s m. induction kvl as [|[k v] kvl IH]; intros s m Hrep Hn Hnd Hfresh.
  { exists s, m. split_and!; [done..|simpl; lia]. }
  rewrite fmap_cons in Hnd. apply NoDup_cons in Hnd as [Hk Hnd].
  destruct (route rev m k Hn) as (i & l & Hki & Hl).
  destruct (Store_rep _ _ _ k v _ _ Hrep Hki Hl) as (s1 & Heq & Hrep1).
  assert (k ∉ l.*1) as Hkl.
  { intros Hin. apply (Hfresh k); [rewrite fmap_cons; apply list_elem_of_here|].
    apply list_elem_of_fmap in Hin as (x & -> & Hx). apply list_elem_of_fmap. exists x.
    split; [done|]. apply elem_of_concat_lookup. eauto. }
  destruct (IH s1 (<[i := put k v l]> m) Hrep1) as (s' & m' & Heq' & Hrep' & Hlen).
  - by rewrite length_insert.
  - done.
  - intros k' Hk' Hin. apply list_elem_of_fmap in Hin as (x & -> & Hx).
    apply elem_of_concat_insert in Hx as [Hx|Hx].
    + rewrite put_miss in Hx by done. apply elem_of_app in Hx as [Hx|Hx].
      * apply (Hfresh x.1).
        -- rewrite fmap_cons. by apply list_elem_of_further.
        -- apply list_elem_of_fmap. exists x. split; [done|].
           apply elem_of_concat_lookup. eauto.
      * apply list_elem_of_singleton in Hx. subst x. done.
    + apply (Hfresh x.1).
      * rewrite fmap_cons. by apply list_elem_of_further.
      * apply list_elem_of_fmap. by exists x.
  - exists s', m'. split_and!; [|done|].
    + cbn [Store_all fst snd]. unfold bind. by rewrite Heq.
    + rewrite Hlen. pose proof (length_concat_insert m i l (put k v l) Hl) as Hc.
      assert (length (put k v l) = S (length l)) as Hp.
      { rewrite put_miss, length_app by done. simpl. lia. }
      simpl. lia.
Qed.

(** C8. After [Store]s of pairwise distinct keys into a fresh map, one
    that [New] has returned, [Length] answers their number (a number an
    [int] can hold); and the [Store]s do return when the map has the shards
    [index] needs. *)
Theorem Length_after_distinct_Stores rev size (kvl : list (string * V)) s0 :
  New size = Ok s0 →
  NoDup kvl.*1 → Z.of_nat (length kvl) < 2 ^ 63 →
  (Z.of_nat (min_shards rev) ≤ size → ∃ s', Store_all rev kvl s0 = Ok (tt, s')) ∧
  (∀ s', Store_all rev kvl s0 = Ok (tt, s') →
         Length s' = Ok (Z.of_nat (length kvl), s')).
Proof.
  intros Hnew Hnd Hlen. pose proof (New_rep rev _ _ Hnew) as Hrep.
  assert ((min_shards rev ≤ Z.to_nat size)%nat →
          ∃ s', Store_all rev kvl s0 = Ok (tt, s') ∧
                Length s' = Ok (Z.of_nat (length kvl), s')) as Htotal.
  { intros Hsize.
    destruct (Store_all_rep rev s0 _ kvl Hrep) as (s' & m' & Heq & Hrep' & Hcount).
    - by rewrite length_replicate.
    - done.
    - intros k _. rewrite concat_replicate_nil. apply not_elem_of_nil.
    - exists s'. split; [done|]. unfold Length.
      rewrite (rep_length _ _ _ Hrep'), Hcount, concat_replicate_nil. simpl.
      rewrite int64_small; [done|lia]. }
  split.
  - intros Hsize. destruct Htotal as (s' & Heq & _); [lia|]. eauto.
  - intros s' Hok. destruct kvl as [|[k v] kvl].
    + simpl in Hok. injection Hok as <-. unfold Length.
      by rewrite (rep_length _ _ _ Hrep), concat_replicate_nil.
    + assert (min_shards rev ≤ Z.to_nat size)%nat as Hsize.
      { cbn [Store_all fst snd] in Hok. unfold bind in Hok.
        destruct (Store rev k v s0) as [r0| |] eqn:E; [|done..].
        destruct (Store_routed _ _ _ _ _ _ Hrep E) as (i & l & Hr).
        apply routed_enough in Hr. by rewrite length_replicate in Hr. }
      destruct (Htotal Hsize) as (s2 & Heq & Hlength).
      rewrite Heq in Hok. by injection Hok as <-.
Qed.

(** C9. [Range] calls the visitor on the pairs [es] of the map, one after
    the other, and stops after the first call that answers [false]. [es]
    lists the chains in the order of the shard table, each from its head to
    its end; every key occurs in it once, and [(k, v)] occurs in it exactly
    when [Load] finds [v] for [k]. *)
Theorem Range_visits_every_pair_once rev s :
  reachable rev s →
  ∃ (sh : shards V) (es : list (string * V)),
    heap_inv s sh ∧ es = concat (view sh) ∧
    NoDup es.*1 ∧
    (∀ k v, (k, v) ∈ es ↔ Load rev k s = Ok ((Some v, true), s)) ∧
    ∀ (A : Type) (f : string → V → A → bool * A) (a : A),
      Range f a s = Ok ((visit f es a).2, s).
Proof.
  intros [m Hrep]%reachable_rep. pose proof Hrep as [(sh & H & Hm) Hkeys Hidx _].
  exists sh, (concat (view sh)). rewrite <- Hm. split_and!; [done|done| | |].
  - apply NoDup_fmap_fst.
    + intros k v1 v2 (i1 & l1 & Hl1 & Hin1)%elem_of_concat_lookup
        (i2 & l2 & Hl2 & Hin2)%elem_of_concat_lookup.
      assert (k ∈ l1.*1) as Hk1 by (apply list_elem_of_fmap; by exists (k, v1)).
      assert (k ∈ l2.*1) as Hk2 by (apply list_elem_of_fmap; by exists (k, v2)).
      pose proof (Hidx _ _ _ Hl1 Hk1) as E1. pose proof (Hidx _ _ _ Hl2 Hk2) as E2.
      assert (i1 = i2) as -> by (rewrite E1 in E2; injection E2; lia).
      assert (l1 = l2) as -> by congruence.
      pose proof (elem_assoc _ _ _ (Hkeys _ _ Hl2) Hin1).
      pose proof (elem_assoc _ _ _ (Hkeys _ _ Hl2) Hin2). congruence.
    + clear Hm. assert (∀ i l, m !! i = Some l → NoDup l) as Hnd.
      { intros i l Hl. eapply NoDup_fmap_1. eauto. }
      assert (∀ i j l l' x, m !! i = Some l → m !! j = Some l' → x ∈ l → x ∈ l' → i = j) as Hdis.
      { intros i j l l' x Hl Hl' Hx Hx'.
        assert (x.1 ∈ l.*1) as Hk1 by (apply list_elem_of_fmap; by exists x).
        assert (x.1 ∈ l'.*1) as Hk2 by (apply list_elem_of_fmap; by exists x).
        pose proof (Hidx _ _ _ Hl Hk1) as E1. pose proof (Hidx _ _ _ Hl' Hk2) as E2.
        rewrite E1 in E2. injection E2. lia. }
      clear Hrep Hkeys Hidx H. induction m as [|l m IH]; simpl; [constructor|].
      apply NoDup_app. split_and!.
      * apply (Hnd 0%nat). done.
      * intros x Hx (j & l' & Hl' & Hx')%elem_of_concat_lookup.
        by pose proof (Hdis 0%nat (S j) l l' x eq_refl Hl' Hx Hx').
      * apply IH.
        -- intros i l' Hl'. by apply (Hnd (S i)).
        -- intros i j l1 l2 x Hl1 Hl2 Hx1 Hx2.
           by pose proof (Hdis (S i) (S j) l1 l2 x Hl1 Hl2 Hx1 Hx2) as [= ->].
  - intros k v. split.
    + intros (i & l & Hl & Hin)%elem_of_concat_lookup.
      assert (k ∈ l.*1) as Hk by (apply list_elem_of_fmap; by exists (k, v)).
      rewrite (Load_rep _ _ _ _ _ _ Hrep (Hidx _ _ _ Hl Hk) Hl).
      by rewrite (elem_assoc _ _ _ (Hkeys _ _ Hl) Hin).
    + intros Hload.
      destruct (locate rev s m k) as [(i & l & Hk & Hl)|Hun]; [by eapply rep_pairs_length| |].
      * pose proof (Load_found _ _ _ _ _ _ (Some v) Hrep (conj Hk Hl) Hload) as Ha.
        apply elem_of_concat_lookup. exists i, l. split; [done|]. by apply assoc_Some_elem.
      * exfalso. destruct (Hun s eq_refl) as [[e He]|(z & e & He & Hp)];
          unfold Load, bind in Hload; rewrite He in Hload; [done|]. by rewrite Hp in Hload.
  - intros A f a. rewrite Hm. by apply Range_heap.
Qed.

(** The operations that insert and look up return in every reachable state
    of a map with enough shards. *)
Lemma Store_returns rev s k v :
  reachable rev s → (min_shards rev ≤ length (pairs s))%nat →
  ∃ s', Store rev k v s = Ok (tt, s').
Proof.
  intros [m Hrep]%reachable_rep Hn. rewrite (rep_pairs_length _ _ _ Hrep) in Hn.
  destruct (route rev m k Hn) as (i & l & Hk & Hl).
  destruct (Store_rep _ _ _ k v _ _ Hrep Hk Hl) as (s' & Heq & _). eauto.
Qed.

Lemma Load_returns rev s k :
  reachable rev s → (min_shards rev ≤ length (pairs s))%nat →
  ∃ o, Load rev k s = Ok (found o, s).
Proof.
  intros [m Hrep]%reachable_rep Hn. rewrite (rep_pairs_length _ _ _ Hrep) in Hn.
  destruct (route rev m k Hn) as (i & l & Hk & Hl).
  exists (assoc k l). by apply (Load_rep _ _ _ _ _ _ Hrep Hk Hl).
Qed.

Lemma LoadOrStore_returns rev s k v :
  reachable rev s → (min_shards rev ≤ length (pairs s))%nat →
  ∃ r s', LoadOrStore rev k v s = Ok (r, s').
Proof.
  intros [m Hrep]%reachable_rep Hn. rewrite (rep_pairs_length _ _ _ Hrep) in Hn.
  destruct (route rev m k Hn) as (i & l & Hk & Hl).
  pose proof (LoadOrStore_rep _ _ _ k v _ _ Hrep Hk Hl) as Hspec.
  destruct (assoc k l); [eauto|]. destruct Hspec as (s' & Heq & _). eauto.
Qed.

(** C2, the code. In [map.go] a map of one shard cannot be used: [index]
    divides by [len(m.pairs) - 1], which is zero. *)
Theorem single_shard_map_go_panics :
  ∃ s0 : memory V,
    New 1 = Ok s0 ∧
    ∀ k v,
      Store map_go k v s0 = Panic DivideByZero ∧
      Load map_go k s0 = Panic DivideByZero ∧
      LoadOrStore map_go k v s0 = Panic DivideByZero ∧
      Delete map_go k s0 = Panic DivideByZero.
Proof.
  eexists. split; [reflexivity|]. intros k v. split_and!.
  - unfold Store, bind. by rewrite new_pair_spec, index_spec.
  - unfold Load, bind. by rewrite index_spec.
  - unfold LoadOrStore, bind. by rewrite new_pair_spec, index_spec.
  - unfold Delete, Delete_map_go, bind. by rewrite index_spec.
Qed.

(** X12. [Delete] of a key that [Load] finds, in the later revisions: it
    answers [true], the counter drops by one and [Load] no longer finds the
    key. *)
Lemma Delete_present_later_revisions rev s k v :
  rev ≠ map_go →
  reachable rev s → (1 ≤ length (pairs s))%nat →
  Load rev k s = Ok ((Some v, true), s) →
  ∃ s', Delete rev k s = Ok (true, s') ∧
        Map_length s' = int64 (Map_length s - 1) ∧
        Load rev k s' = Ok ((None, false), s').
Proof.
  intros Hrev [m Hrep]%reachable_rep Hn Hload. rewrite (rep_pairs_length _ _ _ Hrep) in Hn.
  assert (min_shards rev ≤ length m)%nat as Hn' by (by destruct rev).
  destruct (route rev m k Hn') as (i & l & Hk & Hl).
  pose proof (Load_found _ _ _ _ _ _ (Some v) Hrep (conj Hk Hl) Hload) as Ha.
  pose proof (Delete_unsafe_rep _ _ _ _ _ _ Hrev Hrep Hk Hl) as Hspec.
  destruct l as [|x l]; [done|]. rewrite Ha in Hspec. destruct Hspec as (s' & Heq & Hrep').
  assert (i < length m)%nat as Hi by (by eapply lookup_lt_Some).
  exists s'. split_and!; [done| |].
  - rewrite (rep_length _ _ _ Hrep'), (rep_length _ _ _ Hrep).
    pose proof (length_concat_insert m i _ (remove k (x :: l)) Hl) as Hc.
    assert (k ∈ (x :: l).*1) as Hin by (apply assoc_is_Some; eauto).
    pose proof (remove_length k _ Hin).
    replace (int64 (Z.of_nat (length (concat m))) - 1)
      with (int64 (Z.of_nat (length (concat m))) + -1) by lia.
    rewrite int64_add_l. f_equal. lia.
  - rewrite (Load_rep rev s' _ k i (remove k (x :: l)) Hrep').
    + rewrite assoc_remove; [done|]. by apply (rep_keys _ _ _ Hrep i).
    + by rewrite length_insert.
    + by apply list_lookup_insert_eq.
Qed.

(** X14. [Delete] of a key that [Load] finds, in [map.go]: it only works
    for the head of a chain that has a second entry. For the only entry of a
    chain it panics on the [nil] given to [CompareAndSwap], and behind the
    head it panics on the type of the value given to [CompareAndSwap]. *)
Lemma Delete_present_map_go s k v (i : nat) c L :
  reachable map_go s → Load map_go k s = Ok ((Some v, true), s) →
  index map_go k s = Ok (Z.of_nat i, s) → pairs s !! i = Some c → chain s c L →
  match L with
  | [] => False
  | e1 :: L' =>
      if decide (key e1.2 = k) then
        match L' with
        | [] => Delete map_go k s = Panic CasNilValue
        | _ :: _ =>
            ∃ s', Delete map_go k s = Ok (true, s') ∧
                  Load map_go k s' = Ok ((None, false), s')
        end
      else Delete map_go k s = Panic CasInconsistentType
  end.
Proof.
  intros [m Hrep]%reachable_rep Hload Hidx Hc Hch.
  pose proof Hrep as [(sh & H & Hm) _ _ _].
  rewrite index_spec in Hidx.
  destruct (shard map_go (Z.of_nat (length (pairs s))) k) as [z|] eqn:Hz; [|done].
  injection Hidx as ->. rewrite (rep_pairs_length _ _ _ Hrep) in Hz.
  pose proof Hc as Hc'. rewrite (inv_pairs _ _ H), list_lookup_fmap in Hc'.
  destruct (sh !! i) as [[c' L0]|] eqn:Hsh; [|done]. simpl in Hc'. injection Hc' as ->.
  assert (L0 = L) as -> by (eapply chain_functional; [by eapply inv_chain|done]).
  assert (m !! i = Some (contents L)) as Hl by (rewrite Hm; apply view_lookup; eauto).
  pose proof (Load_found _ _ _ _ _ _ (Some v) Hrep (conj Hz Hl) Hload) as Ha.
  pose proof (Delete_map_go_rep _ _ _ _ _ Hrep Hz Hl) as Hspec.
  destruct L as [|e1 L]; [done|]. simpl in Hspec, Ha.
  destruct (decide (key e1.2 = k)) as [Hk1|Hk1].
  - destruct L as [|e2 L]; [done|]. simpl in Hspec.
    destruct Hspec as (s' & Heq & Hrep'). exists s'. split; [done|].
    assert (i < length m)%nat as Hi by (by eapply lookup_lt_Some).
    assert (remove k (contents (e1 :: e2 :: L)) = (key e2.2, value e2.2) :: contents L) as Hrm.
    { simpl. by rewrite decide_True. }
    rewrite <- Hrm in Hrep'.
    rewrite (Load_rep map_go s' _ k i (remove k (contents (e1 :: e2 :: L))) Hrep').
    + rewrite assoc_remove; [done|]. by apply (rep_keys _ _ _ Hrep i).
    + by rewrite length_insert.
    + by apply list_lookup_insert_eq.
  - by rewrite Ha in Hspec.
Qed.

(** X13. [Delete] of a key that [Load] does not find, in [map.go]: it
    answers [false] and the state is the one before. *)
Lemma Delete_absent_map_go s k :
  reachable map_go s → Load map_go k s = Ok ((None, false), s) →
  Delete map_go k s = Ok (false, s).
Proof.
  intros [m Hrep]%reachable_rep Hload.
  destruct (locate map_go s m k) as [(i & l & Hk & Hl)|Hun]; [by eapply rep_pairs_length| |].
  - pose proof (Load_found _ _ _ _ _ _ None Hrep (conj Hk Hl) Hload) as Ha.
    pose proof (Delete_map_go_rep _ _ _ _ _ Hrep Hk Hl) as Hspec.
    destruct l as [|x l]; [done|]. simpl in Ha.
    destruct (decide (x.1 = k)); [done|]. by rewrite Ha in Hspec.
  - exfalso. destruct (Hun s eq_refl) as [[e He]|(z & e & He & Hp)];
      unfold Load, bind in Hload; rewrite He in Hload; [done|]. by rewrite Hp in Hload.
Qed.

(** X15. [Delete] of a key that [Load] does not find, in the later
    revisions: it answers [false] when the chain of the shard is empty, and
    panics on [np.key] when it is not. *)
Lemma Delete_absent_later_revisions rev s k (i : nat) c :
  rev ≠ map_go →
  reachable rev s → Load rev k s = Ok ((None, false), s) →
  index rev k s = Ok (Z.of_nat i, s) → pairs s !! i = Some c →
  Delete rev k s =
    if decide (values s !! c = Some nil) then Ok (false, s) else Panic NilDereference.
Proof.
  intros Hrev [m Hrep]%reachable_rep Hload Hidx Hc.
  pose proof Hrep as [(sh & H & Hm) _ _ _].
  rewrite index_spec in Hidx.
  destruct (shard rev (Z.of_nat (length (pairs s))) k) as [z|] eqn:Hz; [|done].
  injection Hidx as ->. rewrite (rep_pairs_length _ _ _ Hrep) in Hz.
  pose proof Hc as Hc'. rewrite (inv_pairs _ _ H), list_lookup_fmap in Hc'.
  destruct (sh !! i) as [[c' L]|] eqn:Hsh; [|done]. simpl in Hc'. injection Hc' as ->.
  assert (m !! i = Some (contents L)) as Hl by (rewrite Hm; apply view_lookup; eauto).
  pose proof (Load_found _ _ _ _ _ _ None Hrep (conj Hz Hl) Hload) as Ha.
  pose proof (Delete_unsafe_rep _ _ _ _ _ _ Hrev Hrep Hz Hl) as Hspec.
  pose proof (inv_chain _ _ H _ _ _ Hsh) as Hch.
  destruct L as [|e1 L]; simpl in Hch, Hspec.
  - by rewrite decide_True.
  - destruct Hch as (Hv & _). rewrite decide_False by congruence.
    change (assoc k (contents (e1 :: L))) with
      (if decide (key e1.2 = k) then Some (value e1.2) else assoc k (contents L)) in Ha.
    by rewrite Ha in Hspec.
Qed.

End Properties.

(** * Runs of the code on small maps *)

Section Examples.
Local Open Scope string_scope.
Local Open Scope Z_scope.

Lemma reachable_two_shards rev : reachable rev two_shards.
Proof. apply (reach_New rev 2). reflexivity. Defined.

Lemma reachable_two_a_b : reachable map_go two_a_b.
Proof.
  apply (reach_Store _ two_a "b" 2); [|vm_compute; reflexivity].
  apply (reach_Store _ two_shards "a" 1); [|vm_compute; reflexivity].
  apply reachable_two_shards.
Defined.

Lemma reachable_one_a rev : rev ≠ map_go → reachable rev one_a.
Proof.
  intros Hrev. apply (reach_Store _ one_shard "a" 1).
  - apply (reach_New rev 1). reflexivity.
  - destruct rev; [done|vm_compute; reflexivity..].
Defined.

(** The example of the specification runs as it says in the later
    revisions. *)
Example spec_example_later_revisions rev :
  rev ≠ map_go →
  New 4 = Ok four_shards ∧
  Store rev "a" 1 four_shards = Ok (tt, four_a) ∧
  Store rev "b" 2 four_a = Ok (tt, four_a_b) ∧
  Load rev "a" four_a_b = Ok ((Some 1, true), four_a_b) ∧
  Delete rev "a" four_a_b = Ok (true, four_b) ∧
  Load rev "a" four_b = Ok ((None, false), four_b) ∧
  Length four_b = Ok (1, four_b).
Proof. intros Hrev. destruct rev; [done|split_and!; vm_compute; reflexivity..]. Qed.

(** C3, the code. In [map.go] [Delete] of a key that is present panics
    unless the key is the head of a chain with a second entry: for the only
    entry of a chain [CompareAndSwap] is given [nil] as the new value, and
    behind the head it is given pointers to [atomic.Value]s for an
    [atomic.Value] that holds a pointer to a [keyValuePair]. *)
Theorem Delete_map_go_panics_on_present_keys :
  (New 4 = Ok four_shards ∧
   Store map_go "a" 1 four_shards = Ok (tt, four_a) ∧
   Store map_go "b" 2 four_a = Ok (tt, four_a_b) ∧
   Load map_go "a" four_a_b = Ok ((Some 1, true), four_a_b) ∧
   Delete map_go "a" four_a_b = Panic CasNilValue) ∧
  (New 2 = Ok two_shards ∧
   Store map_go "a" 1 two_shards = Ok (tt, two_a) ∧
   Store map_go "b" 2 two_a = Ok (tt, two_a_b) ∧
   Load map_go "b" two_a_b = Ok ((Some 2, true), two_a_b) ∧
   Delete map_go "b" two_a_b = Panic CasInconsistentType).
Proof. split_and!; vm_compute; reflexivity. Qed.

(** C4, the code. In the later revisions [Delete] of a key that is absent
    from a chain that is not empty panics: at the end of the chain [np] is
    [nil] and [np.key] dereferences it before [pv == nil] is tested. *)
Theorem Delete_later_revisions_panics_on_absent_key :
  New 1 = Ok one_shard ∧
  (Store part_000 "a" 1 one_shard = Ok (tt, one_a) ∧
   Load part_000 "b" one_a = Ok ((None, false), one_a) ∧
   Delete part_000 "b" one_a = Panic NilDereference) ∧
  (Store part_001 "a" 1 one_shard = Ok (tt, one_a) ∧
   Load part_001 "b" one_a = Ok ((None, false), one_a) ∧
   Delete part_001 "b" one_a = Panic NilDereference).
Proof. split_and!; vm_compute; reflexivity. Qed.

Lemma index_never_last_shard_witness :
  reachable map_go two_a_b ∧ (1 < length (pairs two_a_b))%nat ∧
  (∀ k, ∃ i, index map_go k two_a_b = Ok (i, two_a_b) ∧
             i = hash63 k `mod` (Z.of_nat (length (pairs two_a_b)) - 1) ∧
             0 ≤ i < Z.of_nat (length (pairs two_a_b)) - 1) ∧
  (∃ c, pairs two_a_b !! (length (pairs two_a_b) - 1)%nat = Some c ∧
        values two_a_b !! c = Some nil).
Proof.
  split; [apply reachable_two_a_b|]. split; [simpl; lia|].
  apply (index_never_last_shard map_go two_a_b); [apply reachable_two_a_b|simpl; lia].
Defined.

Lemma chain_keys_distinct_witness :
  reachable map_go two_a_b ∧ pairs two_a_b !! 0%nat = Some 0%nat ∧
  ∃ L, chain two_a_b 0%nat L ∧ NoDup (keys L).
Proof.
  split; [apply reachable_two_a_b|]. split; [reflexivity|].
  apply (chain_keys_distinct map_go two_a_b 0 0); [apply reachable_two_a_b|reflexivity].
Defined.

Lemma Load_after_Stores_witness :
  reachable map_go two_a_b ∧
  ((min_shards map_go ≤ length (pairs two_a_b))%nat →
   ∃ s', Stores map_go "b" ([7; 8] ++ [9]) two_a_b = Ok (tt, s')) ∧
  (∀ s', Stores map_go "b" ([7; 8] ++ [9]) two_a_b = Ok (tt, s') →
         Load map_go "b" s' = Ok ((Some 9, true), s')).
Proof.
  split; [apply reachable_two_a_b|].
  apply (Load_after_Stores map_go two_a_b "b" [7; 8] 9). apply reachable_two_a_b.
Defined.

Lemma LoadOrStore_absent_then_present_witness :
  reachable map_go two_a_b ∧
  Load map_go "c" two_a_b = Ok ((None, false), two_a_b) ∧
  ∃ s1, LoadOrStore map_go "c" 3 two_a_b = Ok ((3, true), s1) ∧
        Load map_go "c" s1 = Ok ((Some 3, true), s1) ∧
        ∃ s2, LoadOrStore map_go "c" 4 s1 = Ok ((3, false), s2) ∧
              Load map_go "c" s2 = Ok ((Some 3, true), s2) ∧
              pairs s2 = pairs s1 ∧ Map_length s2 = Map_length s1 ∧
              values s1 `prefix_of` values s2 ∧ kvs s1 `prefix_of` kvs s2 ∧
              ∀ k', ∃ r, Load map_go k' s1 = Ok (r, s1) ∧ Load map_go k' s2 = Ok (r, s2).
Proof.
  split; [apply reachable_two_a_b|]. split; [vm_compute; reflexivity|].
  apply (LoadOrStore_absent_then_present map_go two_a_b "c" 3 4);
    [apply reachable_two_a_b|vm_compute; reflexivity].
Defined.

Lemma LoadAndStore_swaps_witness :
  part_000 ≠ map_go ∧ reachable part_000 one_a ∧ (1 ≤ length (pairs one_a))%nat ∧
  ∃ old s', LoadAndStore "a" 5 one_a = Ok (old, s') ∧
            Load part_000 "a" one_a = Ok (found old, one_a) ∧
            Load part_000 "a" s' = Ok ((Some 5, true), s') ∧
            Map_length s' =
              match old with
              | Some _ => Map_length one_a
              | None => int64 (Map_length one_a + 1)
              end ∧
            ∀ k', k' ≠ "a" →
              ∃ r, Load part_000 k' one_a = Ok (r, one_a) ∧ Load part_000 k' s' = Ok (r, s').
Proof.
  split; [done|]. split; [by apply reachable_one_a|]. split; [simpl; lia|].
  apply (LoadAndStore_swaps part_000 one_a "a" 5); [done|by apply reachable_one_a|simpl; lia].
Defined.

Lemma Length_after_distinct_Stores_witness :
  New 4 = Ok four_shards ∧
  NoDup [("a", 1); ("b", 2); ("c", 3)].*1 ∧
  Z.of_nat (length [("a", 1); ("b", 2); ("c", 3)]) < 2 ^ 63 ∧
  (Z.of_nat (min_shards map_go) ≤ 4 →
   ∃ s', Store_all map_go [("a", 1); ("b", 2); ("c", 3)] four_shards = Ok (tt, s')) ∧
  (∀ s', Store_all map_go [("a", 1); ("b", 2); ("c", 3)] four_shards = Ok (tt, s') →
         Length s' = Ok (Z.of_nat (length [("a", 1); ("b", 2); ("c", 3)]), s')).
Proof.
  assert (NoDup [("a", 1); ("b", 2); ("c", 3)].*1) as Hnd.
  { apply (bool_decide_unpack _). vm_compute. exact I. }
  split; [reflexivity|]. split; [exact Hnd|]. split; [simpl; lia|].
  apply (Length_after_distinct_Stores map_go 4 [("a", 1); ("b", 2); ("c", 3)] four_shards);
    [reflexivity|exact Hnd|simpl; lia].
Defined.

Lemma Range_visits_every_pair_once_witness :
  reachable map_go two_a_b ∧
  ∃ (sh : shards Z) (es : list (string * Z)),
    heap_inv two_a_b sh ∧ es = concat (view sh) ∧
    NoDup es.*1 ∧
    (∀ k v, (k, v) ∈ es ↔ Load map_go k two_a_b = Ok ((Some v, true), two_a_b)) ∧
    ∀ (A : Type) (f : string → Z → A → bool * A) (a : A),
      Range f a two_a_b = Ok ((visit f es a).2, two_a_b).
Proof.
  split; [apply reachable_two_a_b|].
  apply (Range_visits_every_pair_once map_go two_a_b). apply reachable_two_a_b.
Defined.

End Examples.

(** * Further properties of the code *)

Section Further.
Context {V : Type}.
Implicit Types (s : memory V) (c p q : loc) (kv : keyValuePair V) (k : string) (v : V).
Implicit Types (L : list (loc * keyValuePair V)) (sh : shards V).
Implicit Types (l : list (string * V)) (m : list (list (string * V))).

(** What a heap that holds [m] with [k] put into shard [i] answers. *)
Lemma rep_put_facts rev s s' m k v i l :
  rep rev s m → rep rev s' (<[i := put k v l]> m) → routed rev m k i l →
  Load rev k s' = Ok ((Some v, true), s') ∧
  Map_length s' =
    match assoc k l with
    | Some _ => Map_length s
    | None => int64 (Map_length s + 1)
    end ∧
  ∀ k', k' ≠ k → ∃ r, Load rev k' s = Ok (r, s) ∧ Load rev k' s' = Ok (r, s').
Proof.
  intros Hrep Hrep' [Hk Hl].
  assert (i < length m)%nat as Hi by (by eapply lookup_lt_Some).
  pose proof (routed_enough _ _ _ _ _ (conj Hk Hl)) as Hn.
  split_and!.
  - rewrite (Load_rep rev s' _ k i (put k v l) Hrep').
    + by rewrite assoc_put.
    + by rewrite length_insert.
    + by apply list_lookup_insert_eq.
  - by eapply rep_put_length.
  - intros k' Hne. destruct (route rev m k' Hn) as (j & l' & Hk' & Hl').
    exists (found (assoc k' l')). split; [by apply (Load_rep _ _ _ _ _ _ Hrep Hk' Hl')|].
    pose proof (routed_insert rev m k' j l' i (put k v l) (conj Hk' Hl') Hi) as [Hk2 Hl2].
    rewrite (Load_rep _ _ _ _ _ _ Hrep' Hk2 Hl2). case_decide as Hij; [|done].
    subst j. assert (l' = l) as -> by congruence. by rewrite assoc_put_ne.
Qed.

(** What a heap that holds [m] without the entry of [k] in shard [i]
    answers. *)
Lemma rep_remove_facts rev s s' m k i l :
  rep rev s m → rep rev s' (<[i := remove k l]> m) → routed rev m k i l → k ∈ l.*1 →
  Load rev k s' = Ok ((None, false), s') ∧
  Map_length s' = int64 (Map_length s - 1) ∧
  ∀ k', k' ≠ k → ∃ r, Load rev k' s = Ok (r, s) ∧ Load rev k' s' = Ok (r, s').
Proof.
  intros Hrep Hrep' [Hk Hl] Hin.
  assert (i < length m)%nat as Hi by (by eapply lookup_lt_Some).
  pose proof (routed_enough _ _ _ _ _ (conj Hk Hl)) as Hn.
  split_and!.
  - rewrite (Load_rep rev s' _ k i (remove k l) Hrep').
    + rewrite assoc_remove; [done|]. by apply (rep_keys _ _ _ Hrep i).
    + by rewrite length_insert.
    + by apply list_lookup_insert_eq.
  - rewrite (rep_length _ _ _ Hrep'), (rep_length _ _ _ Hrep).
    pose proof (length_concat_insert m i _ (remove k l) Hl) as Hc.
    pose proof (remove_length k _ Hin).
    replace (int64 (Z.of_nat (length (concat m))) - 1)
      with (int64 (Z.of_nat (length (concat m))) + -1) by lia.
    rewrite int64_add_l. f_equal. lia.
  - intros k' Hne. destruct (route rev m k' Hn) as (j & l' & Hk' & Hl').
    exists (found (assoc k' l')). split; [by apply (Load_rep _ _ _ _ _ _ Hrep Hk' Hl')|].
    pose proof (routed_insert rev m k' j l' i (remove k l) (conj Hk' Hl') Hi) as [Hk2 Hl2].
    rewrite (Load_rep _ _ _ _ _ _ Hrep' Hk2 Hl2). case_decide as Hij; [|done].
    subst j. assert (l' = l) as -> by congruence. by rewrite assoc_remove_ne.
Qed.

(** X1. A fresh map is empty: [Length] answers 0, [Range] never calls
    the visitor, and [Load] finds no key. *)
Theorem fresh_map_is_empty rev size s :
  New size = Ok s →
  Length s = Ok (0, s) ∧
  (∀ (A : Type) (f : string → V → A → bool * A) (a : A), Range f a s = Ok (a, s)) ∧
  (Z.of_nat (min_shards rev) ≤ size → ∀ k, Load rev k s = Ok ((None, false), s)).
Proof.
  intros Hnew. pose proof (New_rep rev _ _ Hnew) as Hrep.
  pose proof (New_heap_inv _ _ Hnew) as H. split_and!.
  - unfold Length. by rewrite (rep_length _ _ _ Hrep), concat_replicate_nil.
  - intros A f a. rewrite (Range_heap f s _ a H). by rewrite view_empty, concat_replicate_nil.
  - intros Hsize k.
    destruct (route rev (replicate (Z.to_nat size) ([] : list (string * V))) k)
      as (i & l & Hk & Hl); [rewrite length_replicate; lia|].
    rewrite (Load_rep _ _ _ _ _ _ Hrep Hk Hl).
    apply lookup_replicate in Hl as [-> _]. done.
Qed.


(** X5. [Store] binds its key to the value given: afterwards [Load] of
    the key answers it; the counter grows by one when [Load] did not find
    the key before and stays when it did; no other key is affected. *)
Theorem Store_effect rev s k v :
  reachable rev s → (min_shards rev ≤ length (pairs s))%nat →
  ∃ o s', Load rev k s = Ok (found o, s) ∧
          Store rev k v s = Ok (tt, s') ∧
          Load rev k s' = Ok ((Some v, true), s') ∧
          Map_length s' =
            match o with
            | Some _ => Map_length s
            | None => int64 (Map_length s + 1)
            end ∧
          ∀ k', k' ≠ k → ∃ r, Load rev k' s = Ok (r, s) ∧ Load rev k' s' = Ok (r, s').
Proof.
  intros [m Hrep]%reachable_rep Hn. rewrite (rep_pairs_length _ _ _ Hrep) in Hn.
  destruct (route rev m k Hn) as (i & l & Hk & Hl).
  destruct (Store_rep _ _ _ k v _ _ Hrep Hk Hl) as (s' & Heq & Hrep').
  exists (assoc k l), s'. split; [by apply (Load_rep _ _ _ _ _ _ Hrep Hk Hl)|].
  split; [done|]. by apply (rep_put_facts rev s s' m k v i l).
Qed.

(** X6. [LoadOrStore] answers the value [Load] finds, with [false], and
    then changes no answer and not the counter; when [Load] finds none it
    answers the value given, with [true], binds the key to it and the
    counter grows by one. No other key is affected. *)
Theorem LoadOrStore_effect rev s k v :
  reachable rev s → (min_shards rev ≤ length (pairs s))%nat →
  ∃ o s', Load rev k s = Ok (found o, s) ∧
          LoadOrStore rev k v s =
            Ok (match o with Some w => (w, false) | None => (v, true) end, s') ∧
          Load rev k s' = Ok ((Some (default v o), true), s') ∧
          Map_length s' =
            match o with
            | Some _ => Map_length s
            | None => int64 (Map_length s + 1)
            end ∧
          ∀ k', k' ≠ k → ∃ r, Load rev k' s = Ok (r, s) ∧ Load rev k' s' = Ok (r, s').
Proof.
  intros [m Hrep]%reachable_rep Hn. rewrite (rep_pairs_length _ _ _ Hrep) in Hn.
  destruct (route rev m k Hn) as (i & l & Hk & Hl).
  pose proof (LoadOrStore_rep _ _ _ k v _ _ Hrep Hk Hl) as Hspec.
  pose proof (Load_rep _ _ _ _ _ _ Hrep Hk Hl) as Hload.
  exists (assoc k l). destruct (assoc k l) as [w|] eqn:Ha.
  - exists (alloc k v s). pose proof (rep_alloc rev s m k v Hrep) as Hrep'.
    split_and!; [done|done| |done|].
    + rewrite (Load_rep _ _ _ _ _ _ Hrep' Hk Hl). by rewrite Ha.
    + intros k' _. destruct (route rev m k' Hn) as (j & l' & Hk' & Hl').
      exists (found (assoc k' l')).
      by rewrite (Load_rep _ _ _ _ _ _ Hrep Hk' Hl'), (Load_rep _ _ _ _ _ _ Hrep' Hk' Hl').
  - destruct Hspec as (s' & Heq & Hrep'). exists s'. split; [done|]. split; [done|].
    pose proof (rep_put_facts rev s s' m k v i l Hrep Hrep' (conj Hk Hl)) as Hf.
    by rewrite Ha in Hf.
Qed.

(** X7. [StoreNotExists] (part_001) answers [true] exactly when [Load]
    did not find the key; then [Load] answers the value given and the counter
    grows by one. When it answers [false] the key keeps its value and the
    counter stays. No other key is affected. *)
Theorem StoreNotExists_effect s k v :
  reachable part_001 s → (1 ≤ length (pairs s))%nat →
  ∃ o s', Load part_001 k s = Ok (found o, s) ∧
          StoreNotExists k v s = Ok (bool_decide (o = None), s') ∧
          Load part_001 k s' = Ok ((Some (default v o), true), s') ∧
          Map_length s' =
            match o with
            | Some _ => Map_length s
            | None => int64 (Map_length s + 1)
            end ∧
          ∀ k', k' ≠ k →
            ∃ r, Load part_001 k' s = Ok (r, s) ∧ Load part_001 k' s' = Ok (r, s').
Proof.
  intros [m Hrep]%reachable_rep Hn. rewrite (rep_pairs_length _ _ _ Hrep) in Hn.
  destruct (route part_001 m k Hn) as (i & l & Hk & Hl).
  assert (part_001 ≠ map_go) as Hrev by done.
  pose proof (StoreNotExists_rep _ _ _ k v _ _ Hrev Hrep Hk Hl) as Hspec.
  pose proof (Load_rep _ _ _ _ _ _ Hrep Hk Hl) as Hload.
  exists (assoc k l). destruct (assoc k l) as [w|] eqn:Ha.
  - exists (alloc k v s). pose proof (rep_alloc part_001 s m k v Hrep) as Hrep'.
    split_and!; [done|done| |done|].
    + rewrite (Load_rep _ _ _ _ _ _ Hrep' Hk Hl). by rewrite Ha.
    + intros k' _. destruct (route part_001 m k' Hn) as (j & l' & Hk' & Hl').
      exists (found (assoc k' l')).
      by rewrite (Load_rep _ _ _ _ _ _ Hrep Hk' Hl'), (Load_rep _ _ _ _ _ _ Hrep' Hk' Hl').
  - destruct Hspec as (s' & Heq & Hrep'). exists s'. split; [done|]. split; [done|].
    pose proof (rep_put_facts part_001 s s' m k v i l Hrep Hrep' (conj Hk Hl)) as Hf.
    by rewrite Ha in Hf.
Qed.

(** What a [Delete] that returned has done. *)
Lemma Delete_outcome rev s m k b s' :
  rep rev s m → Delete rev k s = Ok (b, s') →
  ∃ i l, routed rev m k i l ∧
    ((b = false ∧ s' = s ∧ assoc k l = None) ∨
     (b = true ∧ k ∈ l.*1 ∧ rep rev s' (<[i := remove k l]> m))).
Proof.
  intros Hrep Hok. destruct (Delete_routed _ _ _ _ _ Hrep Hok) as (i & l & Hk & Hl).
  exists i, l. split; [done|]. destruct (decide (rev = map_go)) as [->|Hrev].
  - pose proof (Delete_map_go_rep _ _ _ _ _ Hrep Hk Hl) as Hspec.
    destruct l as [|x l].
    { rewrite Hspec in Hok. injection Hok as <- <-. by left. }
    destruct (decide (x.1 = k)) as [Hx|Hx].
    + destruct l as [|y l]; [by rewrite Hspec in Hok|].
      destruct Hspec as (s2 & Heq & Hrep'). rewrite Heq in Hok. injection Hok as <- <-.
      right. split_and!; [done| |done]. rewrite fmap_cons, Hx. apply list_elem_of_here.
    + destruct (assoc k l) eqn:Ha; rewrite Hspec in Hok; [done|]. injection Hok as <- <-.
      left. split_and!; [done..|]. simpl. by rewrite decide_False.
  - pose proof (Delete_unsafe_rep _ _ _ _ _ _ Hrev Hrep Hk Hl) as Hspec.
    destruct l as [|x l].
    { rewrite Hspec in Hok. injection Hok as <- <-. by left. }
    destruct (assoc k (x :: l)) eqn:Ha; [|by rewrite Hspec in Hok].
    destruct Hspec as (s2 & Heq & Hrep'). rewrite Heq in Hok. injection Hok as <- <-.
    right. split_and!; [done| |done]. apply assoc_is_Some. eauto.
Qed.

(** X10. When [Delete] answers [true], [Load] found the key before and
    does not find it afterwards, the counter has dropped by one, and no other
    key is affected. *)
Theorem Delete_true rev s k s' :
  reachable rev s → Delete rev k s = Ok (true, s') →
  (∃ w, Load rev k s = Ok ((Some w, true), s)) ∧
  Load rev k s' = Ok ((None, false), s') ∧
  Map_length s' = int64 (Map_length s - 1) ∧
  ∀ k', k' ≠ k → ∃ r, Load rev k' s = Ok (r, s) ∧ Load rev k' s' = Ok (r, s').
Proof.
  intros [m Hrep]%reachable_rep Hok.
  destruct (Delete_outcome _ _ _ _ _ _ Hrep Hok) as (i & l & [Hk Hl] & [(? & _)|(_ & Hin & Hrep')]);
    [done|].
  split.
  - apply assoc_is_Some in Hin as [w Hw]. exists w.
    rewrite (Load_rep _ _ _ _ _ _ Hrep Hk Hl). by rewrite Hw.
  - by apply (rep_remove_facts rev s s' m k i l).
Qed.

(** X11. When [Delete] answers [false], [Load] does not find the key and
    nothing was written: the state is the one before the call. *)
Theorem Delete_false rev s k s' :
  reachable rev s → Delete rev k s = Ok (false, s') →
  s' = s ∧ Load rev k s = Ok ((None, false), s).
Proof.
  intros [m Hrep]%reachable_rep Hok.
  destruct (Delete_outcome _ _ _ _ _ _ Hrep Hok) as (i & l & [Hk Hl] & [(_ & -> & Ha)|(? & _)]);
    [|done].
  split; [done|]. rewrite (Load_rep _ _ _ _ _ _ Hrep Hk Hl). by rewrite Ha.
Qed.

Lemma remove_put_miss k v l : k ∉ l.*1 → remove k (put k v l) = l.
Proof.
  induction l as [|x l IH]; simpl.
  - intros _. by rewrite decide_True.
  - rewrite not_elem_of_cons. intros [Hne Hl]. rewrite decide_False by done. simpl.
    rewrite decide_False by done. by rewrite IH.
Qed.

(** X16. In the later revisions [Store] of a key [Load] does not find,
    followed by [Delete] of the key, gives back the map: [Delete] answers
    [true], the counter is as before and every [Load] answers as before. *)
Theorem Store_then_Delete rev s k v :
  rev ≠ map_go →
  reachable rev s → Load rev k s = Ok ((None, false), s) →
  ∃ s1 s2, Store rev k v s = Ok (tt, s1) ∧
           Delete rev k s1 = Ok (true, s2) ∧
           Map_length s2 = Map_length s ∧
           ∀ k', ∃ r, Load rev k' s = Ok (r, s) ∧ Load rev k' s2 = Ok (r, s2).
Proof.
  intros Hrev [m Hrep]%reachable_rep Habs.
  destruct (Load_routed _ _ _ _ _ Hrep Habs) as (i & l & Hk & Hl).
  pose proof (routed_enough _ _ _ _ _ (conj Hk Hl)) as Hn.
  pose proof (Load_found _ _ _ _ _ _ None Hrep (conj Hk Hl) Habs) as Hnone.
  apply assoc_None in Hnone.
  destruct (Store_rep _ _ _ k v _ _ Hrep Hk Hl) as (s1 & Heq1 & Hrep1).
  assert (i < length m)%nat as Hi by (by eapply lookup_lt_Some).
  assert (shard rev (Z.of_nat (length (<[i := put k v l]> m))) k = Some (Z.of_nat i)) as Hk1.
  { by rewrite length_insert. }
  assert (<[i := put k v l]> m !! i = Some (put k v l)) as Hl1.
  { by apply list_lookup_insert_eq. }
  pose proof (Delete_unsafe_rep _ _ _ _ _ _ Hrev Hrep1 Hk1 Hl1) as Hspec.
  rewrite assoc_put in Hspec.
  destruct (put k v l) as [|x l1] eqn:Hput.
  { rewrite put_miss in Hput by done. by destruct l. }
  destruct Hspec as (s2 & Heq2 & Hrep2). rewrite <- Hput in Hrep2.
  rewrite remove_put_miss, list_insert_insert_eq, list_insert_id in Hrep2 by done.
  exists s1, s2. split_and!; [done|done| |].
  - by rewrite (rep_length _ _ _ Hrep2), (rep_length _ _ _ Hrep).
  - intros k'. destruct (route rev m k' Hn) as (j & l' & Hk' & Hl').
    exists (found (assoc k' l')).
    by rewrite (Load_rep _ _ _ _ _ _ Hrep Hk' Hl'), (Load_rep _ _ _ _ _ _ Hrep2 Hk' Hl').
Qed.

Lemma visit_count (es : list (string * V)) (n : nat) :
  visit (λ _ _ (c : nat), (true, S c)) es n = (true, (length es + n)%nat).
Proof.
  revert n. induction es as [|x es IH]; intros n; simpl; [done|].
  rewrite IH. f_equal. lia.
Qed.

(** X17. The counter agrees with the chains: in every reachable state
    [Length] answers the number of calls [Range] makes to a visitor that
    never stops it (as an [int64]). *)
Theorem Length_counts_entries rev s :
  reachable rev s →
  ∃ n : nat,
    Range (λ _ _ (c : nat), (true, S c)) 0%nat s = Ok (n, s) ∧
    Length s = Ok (int64 (Z.of_nat n), s).
Proof.
  intros [m Hrep]%reachable_rep. pose proof Hrep as [(sh & H & Hm) _ _ Hlen].
  exists (length (concat m)). split.
  - rewrite (Range_heap _ s sh 0%nat H), <- Hm, visit_count. simpl. by rewrite Nat.add_0_r.
  - unfold Length. by rewrite Hlen.
Qed.

(** X18. Every entry sits in the chain of the shard [index] routes its
    key to. *)
Theorem entries_routed rev s (i : nat) c L e :
  reachable rev s → pairs s !! i = Some c → chain s c L → e ∈ L →
  index rev (key e.2) s = Ok (Z.of_nat i, s).
Proof.
  intros [m Hrep]%reachable_rep Hc Hch He.
  pose proof Hrep as [(sh & H & Hm) _ Hidx _].
  pose proof Hc as Hc'. rewrite (inv_pairs _ _ H), list_lookup_fmap in Hc'.
  destruct (sh !! i) as [[c' L0]|] eqn:Hsh; [|done]. simpl in Hc'. injection Hc' as ->.
  assert (L0 = L) as -> by (eapply chain_functional; [by eapply inv_chain|done]).
  assert (m !! i = Some (contents L)) as Hl by (rewrite Hm; apply view_lookup; eauto).
  rewrite index_spec, (rep_pairs_length _ _ _ Hrep).
  rewrite (Hidx i (contents L) (key e.2) Hl); [done|].
  rewrite contents_keys. unfold keys. apply list_elem_of_fmap. by exists e.
Qed.

(** X19. Chains share nothing: no [atomic.Value] and no entry occurs
    twice in a chain, and none occurs in the chains of two slots. *)
Theorem chains_share_nothing rev s (i j : nat) c c' L L' :
  reachable rev s →
  pairs s !! i = Some c → chain s c L →
  pairs s !! j = Some c' → chain s c' L' →
  NoDup (cells c L) ∧ NoDup (nodes L) ∧
  (i ≠ j → (∀ x, x ∈ cells c L → x ∉ cells c' L') ∧ (∀ x, x ∈ nodes L → x ∉ nodes L')).
Proof.
  intros [m Hrep]%reachable_rep Hc Hch Hc' Hch'.
  destruct Hrep as [(sh & H & Hm) _ _ _].
  assert (∀ (n : nat) d D, pairs s !! n = Some d → chain s d D → sh !! n = Some (d, D)) as Hsh.
  { intros n d D Hd HD. rewrite (inv_pairs _ _ H), list_lookup_fmap in Hd.
    destruct (sh !! n) as [[d' D0]|] eqn:E; [|done]. simpl in Hd. injection Hd as ->.
    f_equal. f_equal. eapply chain_functional; [by eapply inv_chain|done]. }
  pose proof (Hsh _ _ _ Hc Hch) as Hi. pose proof (Hsh _ _ _ Hc' Hch') as Hj.
  split_and!.
  - eapply (NoDup_concat_lookup _ i); [apply (inv_cells _ _ H)|].
    by rewrite list_lookup_fmap, Hi.
  - eapply (NoDup_concat_lookup _ i); [apply (inv_nodes _ _ H)|].
    by rewrite list_lookup_fmap, Hi.
  - intros Hij. split; intros x Hx.
    + by eapply (shape_cells_disjoint sh i j); [apply (inv_cells _ _ H)|..].
    + by eapply (shape_nodes_disjoint sh i j); [apply (inv_nodes _ _ H)|..].
Qed.

(** X20. No operation changes the number of shards: the shard table is as
    long after every call that returns as [New] made it. *)
Theorem shard_count_fixed rev s :
  reachable rev s →
  (∀ k v s', Store rev k v s = Ok (tt, s') → length (pairs s') = length (pairs s)) ∧
  (∀ k v r s', LoadOrStore rev k v s = Ok (r, s') → length (pairs s') = length (pairs s)) ∧
  (rev ≠ map_go →
   ∀ k v r s', LoadAndStore k v s = Ok (r, s') → length (pairs s') = length (pairs s)) ∧
  (rev = part_001 →
   ∀ k v r s', StoreNotExists k v s = Ok (r, s') → length (pairs s') = length (pairs s)) ∧
  (∀ k r s', Delete rev k s = Ok (r, s') → length (pairs s') = length (pairs s)).
Proof.
  intros [m Hrep]%reachable_rep. rewrite (rep_pairs_length _ _ _ Hrep). split_and!.
  - intros k v s' Hok. destruct (Store_routed _ _ _ _ _ _ Hrep Hok) as (i & l & Hk & Hl).
    destruct (Store_rep _ _ _ k v _ _ Hrep Hk Hl) as (s2 & Heq & Hrep').
    rewrite Heq in Hok. injection Hok as <-.
    by rewrite (rep_pairs_length _ _ _ Hrep'), length_insert.
  - intros k v r s' Hok.
    destruct (LoadOrStore_routed _ _ _ _ _ _ Hrep Hok) as (i & l & Hk & Hl).
    pose proof (LoadOrStore_rep _ _ _ k v _ _ Hrep Hk Hl) as Hspec.
    destruct (assoc k l).
    + rewrite Hspec in Hok. injection Hok as <- <-. simpl. by eapply rep_pairs_length.
    + destruct Hspec as (s2 & Heq & Hrep'). rewrite Heq in Hok. injection Hok as <- <-.
      by rewrite (rep_pairs_length _ _ _ Hrep'), length_insert.
  - intros Hrev k v r s' Hok.
    destruct (LoadAndStore_routed _ _ _ _ _ _ Hrev Hrep Hok) as (i & l & Hk & Hl).
    destruct (LoadAndStore_rep _ _ _ k v _ _ Hrev Hrep Hk Hl) as (s2 & Heq & Hrep').
    rewrite Heq in Hok. injection Hok as <- <-.
    by rewrite (rep_pairs_length _ _ _ Hrep'), length_insert.
  - intros -> k v r s' Hok. assert (part_001 ≠ map_go) as Hrev by done.
    destruct (StoreNotExists_routed _ _ _ _ _ _ Hrev Hrep Hok) as (i & l & Hk & Hl).
    pose proof (StoreNotExists_rep _ _ _ k v _ _ Hrev Hrep Hk Hl) as Hspec.
    destruct (assoc k l).
    + rewrite Hspec in Hok. injection Hok as <- <-. simpl. by eapply rep_pairs_length.
    + destruct Hspec as (s2 & Heq & Hrep'). rewrite Heq in Hok. injection Hok as <- <-.
      by rewrite (rep_pairs_length _ _ _ Hrep'), length_insert.
  - intros k r s' Hok.
    destruct (Delete_outcome _ _ _ _ _ _ Hrep Hok)
      as (i & l & _ & [(_ & -> & _)|(_ & _ & Hrep')]).
    + by eapply rep_pairs_length.
    + by rewrite (rep_pairs_length _ _ _ Hrep'), length_insert.
Qed.

Lemma Load_loop_read_only n k c s r s' : Load_loop n k c s = Ok (r, s') → s' = s.
Proof.
  revert c. induction n as [|n IH]; intros c; simpl; [done|].
  unfold bind, Value_Load. destruct (values s !! c) as [x|]; [|done].
  destruct (decide (x = nil)); [by intros [= _ <-]|].
  destruct x as [|p|d]; simpl; try done.
  unfold deref. destruct (kvs s !! p) as [kv|]; [|done].
  destruct (decide (key kv = k)); [by intros [= _ <-]|]. apply IH.
Qed.

Lemma Range_chain_read_only {A} (f : string → V → A → bool * A) n x a s r s' :
  Range_chain f n x a s = Ok (r, s') → s' = s.
Proof.
  revert x a. induction n as [|n IH]; intros x a; simpl; [done|].
  destruct x as [|p|d]; simpl; try done.
  unfold bind at 1, ret at 1. unfold bind at 1, deref.
  destruct (kvs s !! p) as [kv|]; [|done].
  destruct (f (key kv) (value kv) a) as [[] a1]; [|by intros [= _ <-]].
  unfold bind, Value_Load. destruct (values s !! nextPair kv) as [y|]; [|done].
  destruct (decide (y = nil)); [by intros [= _ <-]|]. apply IH.
Qed.

Lemma Range_pairs_read_only {A} (f : string → V → A → bool * A) ps a s a' s' :
  Range_pairs f ps a s = Ok (a', s') → s' = s.
Proof.
  revert a. induction ps as [|c ps IH]; intros a; cbn [Range_pairs]; [by intros [= _ <-]|].
  unfold bind at 1, Value_Load. destruct (values s !! c) as [x|]; [|done].
  destruct (decide (x = nil)); [apply IH|].
  unfold bind. cbv beta.
  destruct (Range_chain f (fuel s) x a s) as [[[go a1] s1]| |] eqn:E; [|done..].
  apply Range_chain_read_only in E. subst s1. cbn [fst snd].
  destruct go; [apply IH|by intros [= _ <-]].
Qed.

(** X4. [Load], [Range] and [Length] never write: in whatever state
    they are called, the state they return in is the one they were called
    in ([Range] with a visitor that does not call the map itself). *)
Theorem reads_never_write rev s :
  (∀ k r s', Load rev k s = Ok (r, s') → s' = s) ∧
  (∀ (A : Type) (f : string → V → A → bool * A) a a' s',
     Range f a s = Ok (a', s') → s' = s) ∧
  (∀ n s', Length s = Ok (n, s') → s' = s).
Proof.
  split_and!.
  - intros k r s'. unfold Load, bind. rewrite index_spec.
    destruct (shard rev _ k) as [z|]; [|done].
    unfold pairs_at. destruct (decide (0 ≤ z)); [|done].
    destruct (pairs s !! Z.to_nat z) as [c|]; [|done]. apply Load_loop_read_only.
  - intros A f a a' s'. unfold Range. apply Range_pairs_read_only.
  - intros n s'. unfold Length. by intros [= _ <-].
Qed.

Lemma StoreNotExists_loop_LoadOrStore n k v q c s :
  StoreNotExists_loop n k q c s = map_answer snd (LoadOrStore_loop n k v q c s).
Proof.
  revert c s. induction n as [|n IH]; intros c s; [done|].
  cbn [StoreNotExists_loop LoadOrStore_loop]. unfold bind.
  destruct (Value_CompareAndSwap c nil (ptr_keyValuePair q) s) as [[[] s1]| |];
    [| |done..].
  - by destruct (AddInt64_length 1 s1) as [[[] s2]| |].
  - destruct (Value_Load c s1) as [[x s2]| |]; [|done..].
    destruct (as_keyValuePair x s2) as [[p s3]| |]; [|done..].
    destruct (deref p s3) as [[kv s4]| |]; [|done..].
    destruct (decide (key kv = k)); [done|apply IH].
Qed.

(** X8. [StoreNotExists] (part_001) is [LoadOrStore] without the value:
    in every state it leaves the heap [LoadOrStore] leaves, answers the flag
    [LoadOrStore] answers, and panics when [LoadOrStore] does. *)
Theorem StoreNotExists_is_LoadOrStore s k v :
  StoreNotExists k v s = map_answer snd (LoadOrStore part_001 k v s).
Proof.
  unfold StoreNotExists, LoadOrStore, bind. rewrite new_pair_spec.
  destruct (index part_001 k (alloc k v s)) as [[z s1]| |]; [|done..].
  destruct (pairs_at z s1) as [[c s2]| |]; [|done..].
  apply StoreNotExists_loop_LoadOrStore.
Qed.

Lemma Store_loop_LoadAndStore n k v q c s :
  Store_loop n k v q c s = map_answer (λ _, tt) (LoadAndStore_loop n k v q c s).
Proof.
  revert c s. induction n as [|n IH]; intros c s; [done|].
  cbn [Store_loop LoadAndStore_loop]. unfold bind.
  destruct (Value_CompareAndSwap c nil (ptr_keyValuePair q) s) as [[[] s1]| |];
    [| |done..].
  - by destruct (AddInt64_length 1 s1) as [[[] s2]| |].
  - destruct (Value_Load c s1) as [[x s2]| |]; [|done..].
    destruct (as_keyValuePair x s2) as [[p s3]| |]; [|done..].
    destruct (deref p s3) as [[kv s4]| |]; [|done..].
    destruct (decide (key kv = k)); [|apply IH].
    by destruct (set_value p v s4) as [[[] s5]| |].
Qed.

(** X9. In the later revisions [Store] is [LoadAndStore] without the
    answer: in every state it leaves the heap [LoadAndStore] leaves and
    panics when [LoadAndStore] does. *)
Theorem Store_is_LoadAndStore s k v :
  Store part_000 k v s = map_answer (λ _, tt) (LoadAndStore k v s) ∧
  Store part_001 k v s = map_answer (λ _, tt) (LoadAndStore k v s).
Proof.
  split; unfold Store, LoadAndStore, bind; rewrite new_pair_spec.
  - destruct (index part_000 k (alloc k v s)) as [[z s1]| |]; [|done..].
    destruct (pairs_at z s1) as [[c s2]| |]; [|done..].
    apply Store_loop_LoadAndStore.
  - change (index part_001 k (alloc k v s)) with (index part_000 k (alloc k v s)).
    destruct (index part_000 k (alloc k v s)) as [[z s1]| |]; [|done..].
    destruct (pairs_at z s1) as [[c s2]| |]; [|done..].
    apply Store_loop_LoadAndStore.
Qed.

Lemma shard_zero rev k : shard rev 0 k = Some 0.
Proof.
  assert (Z.rem (hash63 k) (-1) = 0) as Hr.
  { change (-1) with (- (1)). rewrite Z.rem_opp_r by lia. apply Z.rem_1_r. }
  destruct rev; unfold shard; change (0 - 1) with (-1); repeat case_decide; try lia;
    by rewrite Hr.
Qed.

Lemma index_no_shards rev k s : pairs s = [] → index rev k s = Ok (0, s).
Proof.
  intros H. rewrite index_spec, H. change (Z.of_nat (length [])) with 0.
  by rewrite shard_zero.
Qed.

(** X2. [New] panics on a negative size and accepts the size 0; on the
    map of no shards every operation that takes a key panics on
    [m.pairs[0]]. *)
Theorem no_shards_every_operation_panics :
  (∀ size, size < 0 → New (V:=V) size = Panic MakeSliceLen) ∧
  ∃ s0 : memory V,
    New 0 = Ok s0 ∧
    ∀ rev k v,
      Store rev k v s0 = Panic IndexOutOfRange ∧
      Load rev k s0 = Panic IndexOutOfRange ∧
      LoadOrStore rev k v s0 = Panic IndexOutOfRange ∧
      LoadAndStore k v s0 = Panic IndexOutOfRange ∧
      StoreNotExists k v s0 = Panic IndexOutOfRange ∧
      Delete rev k s0 = Panic IndexOutOfRange.
Proof.
  split.
  { intros size Hsize. unfold New. by rewrite decide_True. }
  exists empty_memory. split; [reflexivity|]. intros rev k v. split_and!.
  - unfold Store, bind. by rewrite new_pair_spec, index_no_shards.
  - unfold Load, bind. by rewrite index_no_shards.
  - unfold LoadOrStore, bind. by rewrite new_pair_spec, index_no_shards.
  - unfold LoadAndStore, bind. by rewrite new_pair_spec, index_no_shards.
  - unfold StoreNotExists, bind. by rewrite new_pair_spec, index_no_shards.
  - destruct rev; unfold Delete, Delete_map_go, Delete_unsafe, bind;
      by rewrite index_no_shards.
Qed.

End Further.

(** * Runs of the further properties on small maps *)

Section FurtherExamples.
Local Open Scope string_scope.
Local Open Scope Z_scope.

Lemma fresh_map_is_empty_witness :
  New 4 = Ok four_shards ∧
  Length four_shards = Ok (0, four_shards) ∧
  (∀ (A : Type) (f : string → Z → A → bool * A) (a : A),
     Range f a four_shards = Ok (a, four_shards)) ∧
  (Z.of_nat (min_shards map_go) ≤ 4 →
   ∀ k, Load map_go k four_shards = Ok ((None, false), four_shards)).
Proof.
  split; [reflexivity|]. apply (fresh_map_is_empty map_go 4 four_shards). reflexivity.
Defined.


Lemma Store_effect_witness :
  reachable map_go two_a_b ∧ (min_shards map_go ≤ length (pairs two_a_b))%nat ∧
  ∃ o s', Load map_go "b" two_a_b = Ok (found o, two_a_b) ∧
          Store map_go "b" 5 two_a_b = Ok (tt, s') ∧
          Load map_go "b" s' = Ok ((Some 5, true), s') ∧
          Map_length s' =
            match o with
            | Some _ => Map_length two_a_b
            | None => int64 (Map_length two_a_b + 1)
            end ∧
          ∀ k', k' ≠ "b" →
            ∃ r, Load map_go k' two_a_b = Ok (r, two_a_b) ∧ Load map_go k' s' = Ok (r, s').
Proof.
  split; [apply reachable_two_a_b|]. split; [simpl; lia|].
  apply (Store_effect map_go two_a_b "b" 5); [apply reachable_two_a_b|simpl; lia].
Defined.

Lemma LoadOrStore_effect_witness :
  reachable map_go two_a_b ∧ (min_shards map_go ≤ length (pairs two_a_b))%nat ∧
  ∃ o s', Load map_go "c" two_a_b = Ok (found o, two_a_b) ∧
          LoadOrStore map_go "c" 3 two_a_b =
            Ok (match o with Some w => (w, false) | None => (3, true) end, s') ∧
          Load map_go "c" s' = Ok ((Some (default 3 o), true), s') ∧
          Map_length s' =
            match o with
            | Some _ => Map_length two_a_b
            | None => int64 (Map_length two_a_b + 1)
            end ∧
          ∀ k', k' ≠ "c" →
            ∃ r, Load map_go k' two_a_b = Ok (r, two_a_b) ∧ Load map_go k' s' = Ok (r, s').
Proof.
  split; [apply reachable_two_a_b|]. split; [simpl; lia|].
  apply (LoadOrStore_effect map_go two_a_b "c" 3); [apply reachable_two_a_b|simpl; lia].
Defined.

Lemma StoreNotExists_effect_witness :
  reachable part_001 one_a ∧ (1 ≤ length (pairs one_a))%nat ∧
  ∃ o s', Load part_001 "b" one_a = Ok (found o, one_a) ∧
          StoreNotExists "b" 2 one_a = Ok (bool_decide (o = None), s') ∧
          Load part_001 "b" s' = Ok ((Some (default 2 o), true), s') ∧
          Map_length s' =
            match o with
            | Some _ => Map_length one_a
            | None => int64 (Map_length one_a + 1)
            end ∧
          ∀ k', k' ≠ "b" →
            ∃ r, Load part_001 k' one_a = Ok (r, one_a) ∧ Load part_001 k' s' = Ok (r, s').
Proof.
  split; [by apply reachable_one_a|]. split; [simpl; lia|].
  apply (StoreNotExists_effect one_a "b" 2); [by apply reachable_one_a|simpl; lia].
Defined.

Lemma Delete_true_witness :
  reachable map_go two_a_b ∧ Delete map_go "a" two_a_b = Ok (true, two_b) ∧
  (∃ w, Load map_go "a" two_a_b = Ok ((Some w, true), two_a_b)) ∧
  Load map_go "a" two_b = Ok ((None, false), two_b) ∧
  Map_length two_b = int64 (Map_length two_a_b - 1) ∧
  ∀ k', k' ≠ "a" →
    ∃ r, Load map_go k' two_a_b = Ok (r, two_a_b) ∧ Load map_go k' two_b = Ok (r, two_b).
Proof.
  split; [apply reachable_two_a_b|]. split; [vm_compute; reflexivity|].
  apply (Delete_true map_go two_a_b "a" two_b);
    [apply reachable_two_a_b|vm_compute; reflexivity].
Defined.

Lemma Delete_false_witness :
  reachable map_go two_a_b ∧ Delete map_go "c" two_a_b = Ok (false, two_a_b) ∧
  two_a_b = two_a_b ∧ Load map_go "c" two_a_b = Ok ((None, false), two_a_b).
Proof.
  split; [apply reachable_two_a_b|]. split; [vm_compute; reflexivity|].
  apply (Delete_false map_go two_a_b "c" two_a_b);
    [apply reachable_two_a_b|vm_compute; reflexivity].
Defined.

Lemma Delete_present_later_revisions_witness :
  part_000 ≠ map_go ∧ reachable part_000 one_a ∧ (1 ≤ length (pairs one_a))%nat ∧
  Load part_000 "a" one_a = Ok ((Some 1, true), one_a) ∧
  ∃ s', Delete part_000 "a" one_a = Ok (true, s') ∧
        Map_length s' = int64 (Map_length one_a - 1) ∧
        Load part_000 "a" s' = Ok ((None, false), s').
Proof.
  split; [done|]. split; [by apply reachable_one_a|]. split; [simpl; lia|].
  split; [vm_compute; reflexivity|].
  apply (Delete_present_later_revisions part_000 one_a "a" 1);
    [done|by apply reachable_one_a|simpl; lia|vm_compute; reflexivity].
Defined.

Lemma Delete_absent_map_go_witness :
  reachable map_go two_a_b ∧ Load map_go "c" two_a_b = Ok ((None, false), two_a_b) ∧
  Delete map_go "c" two_a_b = Ok (false, two_a_b).
Proof.
  split; [apply reachable_two_a_b|]. split; [vm_compute; reflexivity|].
  apply (Delete_absent_map_go two_a_b "c"); [apply reachable_two_a_b|vm_compute; reflexivity].
Defined.

Lemma Delete_present_map_go_witness :
  reachable map_go two_a_b ∧ Load map_go "a" two_a_b = Ok ((Some 1, true), two_a_b) ∧
  index map_go "a" two_a_b = Ok (Z.of_nat 0, two_a_b) ∧
  pairs two_a_b !! 0%nat = Some 0%nat ∧
  chain two_a_b 0%nat
    [(0%nat, {| key := "a"; value := 1; nextPair := 2 |});
     (1%nat, {| key := "b"; value := 2; nextPair := 3 |})] ∧
  ∃ s', Delete map_go "a" two_a_b = Ok (true, s') ∧
        Load map_go "a" s' = Ok ((None, false), s').
Proof.
  split; [apply reachable_two_a_b|]. split; [vm_compute; reflexivity|].
  split; [vm_compute; reflexivity|]. split; [reflexivity|].
  split; [simpl; repeat split; reflexivity|].
  apply (Delete_present_map_go two_a_b "a" 1 0 0%nat
           [(0%nat, {| key := "a"; value := 1; nextPair := 2 |});
            (1%nat, {| key := "b"; value := 2; nextPair := 3 |})]);
    [apply reachable_two_a_b|vm_compute; reflexivity|vm_compute; reflexivity|reflexivity|
     simpl; repeat split; reflexivity].
Defined.

Lemma Delete_absent_later_revisions_witness :
  part_000 ≠ map_go ∧ reachable part_000 one_a ∧
  Load part_000 "b" one_a = Ok ((None, false), one_a) ∧
  index part_000 "b" one_a = Ok (Z.of_nat 0, one_a) ∧
  pairs one_a !! 0%nat = Some 0%nat ∧
  Delete part_000 "b" one_a =
    if decide (values one_a !! 0%nat = Some nil) then Ok (false, one_a)
    else Panic NilDereference.
Proof.
  split; [done|]. split; [by apply reachable_one_a|]. split; [vm_compute; reflexivity|].
  split; [vm_compute; reflexivity|]. split; [reflexivity|].
  apply (Delete_absent_later_revisions part_000 one_a "b" 0 0%nat);
    [done|by apply reachable_one_a|vm_compute; reflexivity|vm_compute; reflexivity|
     reflexivity].
Defined.

Lemma Store_then_Delete_witness :
  part_000 ≠ map_go ∧ reachable part_000 one_a ∧
  Load part_000 "b" one_a = Ok ((None, false), one_a) ∧
  ∃ s1 s2, Store part_000 "b" 2 one_a = Ok (tt, s1) ∧
           Delete part_000 "b" s1 = Ok (true, s2) ∧
           Map_length s2 = Map_length one_a ∧
           ∀ k', ∃ r, Load part_000 k' one_a = Ok (r, one_a) ∧
                      Load part_000 k' s2 = Ok (r, s2).
Proof.
  split; [done|]. split; [by apply reachable_one_a|]. split; [vm_compute; reflexivity|].
  apply (Store_then_Delete part_000 one_a "b" 2);
    [done|by apply reachable_one_a|vm_compute; reflexivity].
Defined.

Lemma Length_counts_entries_witness :
  reachable map_go two_a_b ∧
  ∃ n : nat,
    Range (λ _ _ (c : nat), (true, S c)) 0%nat two_a_b = Ok (n, two_a_b) ∧
    Length two_a_b = Ok (int64 (Z.of_nat n), two_a_b).
Proof.
  split; [apply reachable_two_a_b|].
  apply (Length_counts_entries map_go two_a_b). apply reachable_two_a_b.
Defined.

Lemma entries_routed_witness :
  reachable map_go two_a_b ∧ pairs two_a_b !! 0%nat = Some 0%nat ∧
  chain two_a_b 0%nat
    [(0%nat, {| key := "a"; value := 1; nextPair := 2 |});
     (1%nat, {| key := "b"; value := 2; nextPair := 3 |})] ∧
  index map_go "b" two_a_b = Ok (Z.of_nat 0, two_a_b).
Proof.
  split; [apply reachable_two_a_b|]. split; [reflexivity|].
  split; [simpl; repeat split; reflexivity|].
  apply (entries_routed map_go two_a_b 0 0%nat
           [(0%nat, {| key := "a"; value := 1; nextPair := 2 |});
            (1%nat, {| key := "b"; value := 2; nextPair := 3 |})]
           (1%nat, {| key := "b"; value := 2; nextPair := 3 |}));
    [apply reachable_two_a_b|reflexivity|simpl; repeat split; reflexivity|].
  apply list_elem_of_further, list_elem_of_here.
Defined.

Lemma chains_share_nothing_witness :
  reachable map_go two_a_b ∧
  pairs two_a_b !! 0%nat = Some 0%nat ∧
  chain two_a_b 0%nat
    [(0%nat, {| key := "a"; value := 1; nextPair := 2 |});
     (1%nat, {| key := "b"; value := 2; nextPair := 3 |})] ∧
  pairs two_a_b !! 1%nat = Some 1%nat ∧ chain two_a_b 1%nat [] ∧
  NoDup [0; 2; 3]%nat ∧ NoDup [0; 1]%nat ∧
  (0%nat ≠ 1%nat →
   (∀ x, x ∈ [0; 2; 3]%nat → x ∉ [1]%nat) ∧ (∀ x, x ∈ [0; 1]%nat → x ∉ ([] : list nat))).
Proof.
  split; [apply reachable_two_a_b|]. split; [reflexivity|].
  split; [simpl; repeat split; reflexivity|]. split; [reflexivity|]. split; [reflexivity|].
  apply (chains_share_nothing map_go two_a_b 0 1 0%nat 1%nat
           [(0%nat, {| key := "a"; value := 1; nextPair := 2 |});
            (1%nat, {| key := "b"; value := 2; nextPair := 3 |})] []);
    [apply reachable_two_a_b|reflexivity|simpl; repeat split; reflexivity|reflexivity|
     reflexivity].
Defined.

Lemma shard_count_fixed_witness :
  reachable part_001 one_a ∧
  (∀ k v s', Store part_001 k v one_a = Ok (tt, s') →
             length (pairs s') = length (pairs one_a)) ∧
  (∀ k v r s', LoadOrStore part_001 k v one_a = Ok (r, s') →
               length (pairs s') = length (pairs one_a)) ∧
  (part_001 ≠ map_go →
   ∀ k v r s', LoadAndStore k v one_a = Ok (r, s') →
               length (pairs s') = length (pairs one_a)) ∧
  (part_001 = part_001 →
   ∀ k v r s', StoreNotExists k v one_a = Ok (r, s') →
               length (pairs s') = length (pairs one_a)) ∧
  (∀ k r s', Delete part_001 k one_a = Ok (r, s') →
             length (pairs s') = length (pairs one_a)).
Proof.
  split; [by apply reachable_one_a|].
  apply (shard_count_fixed part_001 one_a). by apply reachable_one_a.
Defined.

End FurtherExamples.
